(** * dregsy: the synchronization engine of [sync/sync.go]

    A shallow embedding of [Sync.SyncFromConfig], [Sync.SyncTask],
    [Sync.Sync] and of the helpers [pull], [list], [tag], [push] and the
    logging functions, followed by the properties of the engine.

    The Docker client, the configuration types and their methods live in
    other packages; they appear here as records of operations over an
    abstract world [W].  Every call that leaves the engine is recorded,
    with its arguments and its outcome, in the trace a computation
    returns next to its result. *)

From Stdlib Require Import ZArith Lia Ascii String.
From stdpp Require Import base list strings.

Local Open Scope string_scope.
Local Open Scope list_scope.

(** A Go [error] value is identified with its message; [None] is [nil]. *)
Definition error : Type := string.

(** ** Package [docker] *)

Module docker.

(** [docker.Image]: the four fields [sync.go] reads and writes. *)
Record Image : Type := mkImage {
  ID : string;
  Repo : string;
  Path : string;
  Tags : list string
}.

#[global] Instance Image_inhabited : Inhabited Image :=
  populate (mkImage "" "" "" []).

(** Modelled from the spec: [Image.Ref] is declared in package [docker],
    outside [sync.go]; an image's reference without tag is [Repo/Path]. *)
Definition Ref (img : Image) : string := Repo img +:+ "/" +:+ Path img.

(** The methods of [docker.Client] the engine calls.  Each one takes the
    world to its answer and the world after the call.  [ListImages]
    returns a slice and an error, as in Go: both are kept. *)
Record Client (W : Type) : Type := mkClient {
  Ping : Z → Z → W → option error * W;
  PullImage : string → bool → string → bool → W → option error * W;
  ListImages : string → W → (list Image * option error) * W;
  TagImage : string → string → W → option error * W;
  PushImage : string → bool → string → bool → W → option error * W
}.

Arguments Ping {W}.
Arguments PullImage {W}.
Arguments ListImages {W}.
Arguments TagImage {W}.
Arguments PushImage {W}.

End docker.

(** ** Configuration types *)

(** Modelled from the spec: [location] is declared with the configuration,
    outside [sync.go]; the engine reads [Registry] and [Auth]. *)
Record location : Type := mkLocation {
  Registry : string;
  Auth : string
}.

(** Modelled from the spec: [mapping] is declared with the configuration;
    [MFrom] and [MTo] stand for the Go fields [From] and [To], [MTags]
    for [Tags]. *)
Record mapping : Type := mkMapping {
  MFrom : string;
  MTo : string;
  MTags : list string
}.

(** Modelled from the spec: [task] is declared with the configuration.
    [Interval] is a Go [int]. *)
Record task : Type := mkTask {
  Name : string;
  Source : location;
  Target : location;
  Mappings : list mapping;
  Interval : Z;
  Verbose : bool
}.

(** Modelled from the spec: [syncConfig] is the ordered list of tasks. *)
Record syncConfig : Type := mkConfig {
  Tasks : list task
}.

(** Which of a task's two locations a call is made on. *)
Inductive endpoint : Type := SourceEnd | TargetEnd.

(** The methods of [task] and [location] that [sync.go] calls and that are
    declared elsewhere.  [refreshAuth] writes the credential of its
    receiver: it returns the location after the call.  [startTicking]
    starts the task's ticker; [recv] is the receive [<-c] on the channel
    the tickers send to: the world decides which task arrives next. *)
Record TaskOps (W : Type) : Type := mkTaskOps {
  mappingRefs : task → mapping → string * string;
  refreshAuth : location → W → (option error * location) * W;
  ensureTargetExists : task → string → W → option error * W;
  startTicking : task → W → W;
  recv : W → task * W
}.

Arguments mappingRefs {W}.
Arguments refreshAuth {W}.
Arguments ensureTargetExists {W}.
Arguments startTicking {W}.
Arguments recv {W}.

(** ** Traces *)

(** What the engine does to the outside: calls with their outcome, and
    the lines it logs.  A line on standard output is kept as the level,
    the format string and the parameters [log] was given; the time stamp
    [log] adds away from a terminal is not part of the event.  A line on
    standard error is kept as the error [LogError] printed. *)
Inductive Event : Type :=
| EvPing (attempts sleep : Z) (res : option error)
| EvPull (ref : string) (allTags : bool) (auth : string) (verbose : bool)
    (res : option error)
| EvList (ref : string) (imgs : list docker.Image) (res : option error)
| EvTag (id ref : string) (res : option error)
| EvPush (ref : string) (allTags : bool) (auth : string) (verbose : bool)
    (res : option error)
| EvRefreshAuth (which : endpoint) (loc : location) (res : option error)
| EvEnsure (trgt : string) (res : option error)
| EvStartTicking (t : task)
| EvRecv (t : task)
| EvLog (level format : string) (params : list string)
| EvLogError (err : error).

(** ** The engine *)

(** A [*docker.Image] is a position in the heap of images. *)
Abbreviation ptr := nat (only parsing).

Section Engine.

Context {W : Type}.

(** [s.client]. *)
Variable client : docker.Client W.

(** The methods declared with the configuration. *)
Variable ops : TaskOps W.

(** [docker.SplitRef], of three results: repository, path and tag. *)
Variable SplitRef : string → string * string * string.

(** [Image.RefWithTags], used for a log line only. *)
Variable RefWithTags : docker.Image → string.

(** The memory the engine works on: the world outside and the images
    behind the [*docker.Image] pointers; a pointer is a position in
    [heap], and allocation appends. *)
Record store : Type := mkStore {
  world : W;
  heap : list docker.Image
}.

(** A computation returns its result, the store after it and the trace
    of what it did. *)
Definition M (A : Type) : Type := store → A * store * list Event.

Definition ret {A : Type} (a : A) : M A := fun s => (a, s, []).

Definition bind {A B : Type} (m : M A) (f : A → M B) : M B :=
  fun s =>
    let '(a, s1, t1) := m s in
    let '(b, s2, t2) := f a s1 in
    (b, s2, t1 ++ t2).

Notation "x <- m ;; k" := (bind m (fun x => k))
  (at level 100, m at next level, right associativity).
Notation "m ;; k" := (bind m (fun _ => k))
  (at level 100, right associativity).

Definition result {A : Type} (r : A * store * list Event) : A := r.1.1.
Definition final {A : Type} (r : A * store * list Event) : store := r.1.2.
Definition trace {A : Type} (r : A * store * list Event) : list Event := r.2.

(** A call on the world, recorded with its outcome. *)
Definition call {A : Type} (f : W → A * W) (ev : A → Event) : M A :=
  fun s =>
    let '(a, w) := f (world s) in
    (a, mkStore w (heap s), [ev a]).

Definition emit (ev : Event) : M unit := fun s => (tt, s, [ev]).

(** [&docker.Image{...}]. *)
Definition alloc (img : docker.Image) : M ptr :=
  fun s => (length (heap s), mkStore (world s) (heap s ++ [img]), []).

(** [*p]; a pointer the engine holds always comes from an allocation. *)
Definition load (p : ptr) : M docker.Image :=
  fun s => (heap s !!! p, s, []).

Fixpoint allocAll (imgs : list docker.Image) : M (list ptr) :=
  match imgs with
  | [] => ret []
  | img :: rest =>
      p <- alloc img ;;
      ps <- allocAll rest ;;
      ret (p :: ps)
  end.

(** *** Logging *)

Definition log (level msg : string) (params : list string) : M unit :=
  emit (EvLog level msg params).

Definition LogInfo (msg : string) (params : list string) : M unit :=
  log "INFO" msg params.

Definition LogWarning (msg : string) (params : list string) : M unit :=
  log "WARN" msg params.

Definition LogPrintln : M unit := LogInfo "" [].

Definition LogError (err : option error) : M bool :=
  match err with
  | Some e => emit (EvLogError e) ;; ret true
  | None => ret false
  end.

(** *** [pull], [list], [push] *)

Definition pull (ref auth : string) (allTags verbose : bool)
  : M (option error) :=
  call (docker.PullImage client ref allTags auth verbose)
       (EvPull ref allTags auth verbose).

(** [list]; the name is taken by the type of lists.  The client hands
    back pointers to the images it found. *)
Definition listImages (ref : string) : M (list ptr * option error) :=
  r <- call (docker.ListImages client ref) (fun r => EvList ref r.1 r.2) ;;
  ps <- allocAll r.1 ;;
  ret (ps, r.2).

Definition push (ref auth : string) (verbose : bool) : M (option error) :=
  call (docker.PushImage client ref true auth verbose)
       (EvPush ref true auth verbose).

(** *** [tag] *)

(** The inner loop of [tag]: one [TagImage] per tag, up to the first
    failure. *)
Fixpoint tagTags (id ref : string) (tags : list string) : M (option error) :=
  match tags with
  | [] => ret None
  | tag :: rest =>
      let new := ref +:+ ":" +:+ tag in
      err <- call (docker.TagImage client id new) (EvTag id new) ;;
      match err with
      | Some e => ret (Some e)
      | None => tagTags id ref rest
      end
  end.

(** The outer loop of [tag], with [taggedImages] as accumulator. *)
Fixpoint tagImages (targetRepo targetPath : string) (images : list ptr)
    (taggedImages : list ptr) : M (list ptr * option error) :=
  match images with
  | [] => ret (taggedImages, None)
  | p :: rest =>
      img <- load p ;;
      tagged <- alloc (docker.mkImage (docker.ID img) targetRepo targetPath
                         (docker.Tags img)) ;;
      tg <- load tagged ;;
      err <- tagTags (docker.ID img) (docker.Ref tg) (docker.Tags img) ;;
      match err with
      | Some e => ret ([], Some e)
      | None => tagImages targetRepo targetPath rest (taggedImages ++ [tagged])
      end
  end.

Definition tag (images : list ptr) (targetRef : string)
  : M (list ptr * option error) :=
  let '(targetRepo, targetPath, _) := SplitRef targetRef in
  tagImages targetRepo targetPath images [].

(** *** [Sync] *)

Definition errorPulling (ref : string) (e : error) : error :=
  "error pulling source image '" +:+ ref +:+ "': " +:+ e.

Definition errorListingAll (ref : string) (e : error) : error :=
  "error listing all tags of source image '" +:+ ref +:+ "': " +:+ e.

Definition errorListing (ref : string) (e : error) : error :=
  "error listing source image '" +:+ ref +:+ "': " +:+ e.

Definition errorTagging (e : error) : error := "error setting tags: " +:+ e.

Definition errorPushing (e : error) : error :=
  "error pushing target image: " +:+ e.

(** [fmt.Sprintf("%s:%s", srcRef, tag)]. *)
Definition refTagged (srcRef tag : string) : string := srcRef +:+ ":" +:+ tag.

(** The first loop over [tags]: it returns at the first pull that fails. *)
Fixpoint pullTags (srcRef srcAuth : string) (verbose : bool)
    (tags : list string) : M (option error) :=
  match tags with
  | [] => ret None
  | tag :: rest =>
      let srcRefTagged := refTagged srcRef tag in
      err <- pull srcRefTagged srcAuth false verbose ;;
      match err with
      | Some e => ret (Some (errorPulling srcRefTagged e))
      | None => pullTags srcRef srcAuth verbose rest
      end
  end.

(** The second loop over [tags]: a failure is logged, and what the call
    returned is appended in either case. *)
Fixpoint listTags (srcRef : string) (tags : list string)
    (srcImages : list ptr) : M (list ptr) :=
  match tags with
  | [] => ret srcImages
  | tag :: rest =>
      let srcRefTagged := refTagged srcRef tag in
      r <- listImages srcRefTagged ;;
      let '(srcImageTagged, err) := r in
      match err with
      | Some e => LogError (Some (errorListing srcRefTagged e)) ;; ret tt
      | None => ret tt
      end ;;
      listTags srcRef rest (srcImages ++ srcImageTagged)
  end.

Fixpoint logImages (srcImages : list ptr) : M unit :=
  match srcImages with
  | [] => ret tt
  | p :: rest =>
      img <- load p ;;
      LogInfo " - %s" [RefWithTags img] ;;
      logImages rest
  end.

Definition Sync (srcRef srcAuth trgtRef trgtAuth : string)
    (tags : list string) (verbose : bool) : M (option error) :=
  LogInfo "pulling source image '%s'" [srcRef] ;;
  err <- match tags with
         | [] =>
             err <- pull srcRef srcAuth true verbose ;;
             match err with
             | Some e => ret (Some (errorPulling srcRef e))
             | None => ret None
             end
         | _ :: _ => pullTags srcRef srcAuth verbose tags
         end ;;
  match err with
  | Some e => ret (Some e)
  | None =>
      LogInfo "relevant tags" [] ;;
      srcImages <- match tags with
                   | [] =>
                       r <- listImages srcRef ;;
                       let '(srcImages, err) := r in
                       match err with
                       | Some e =>
                           LogError (Some (errorListingAll srcRef e)) ;;
                           ret srcImages
                       | None => ret srcImages
                       end
                   | _ :: _ => listTags srcRef tags []
                   end ;;
      logImages srcImages ;;
      LogInfo "setting tags for target image '%s'" [trgtRef] ;;
      r <- tag srcImages trgtRef ;;
      match r.2 with
      | Some e => ret (Some (errorTagging e))
      | None =>
          LogInfo "pushing target image '%s'" [trgtRef] ;;
          err <- push trgtRef trgtAuth verbose ;;
          match err with
          | Some e => ret (Some (errorPushing e))
          | None => ret None
          end
      end
  end.

(** *** [SyncTask] *)

Definition withSource (t : task) (l : location) : task :=
  mkTask (Name t) l (Target t) (Mappings t) (Interval t) (Verbose t).

Definition withTarget (t : task) (l : location) : task :=
  mkTask (Name t) (Source t) l (Mappings t) (Interval t) (Verbose t).

(** [t.Source.refreshAuth()] and [t.Target.refreshAuth()]: the location
    is written in place, so the task after the call carries it. *)
Definition refreshSource (t : task) : M (option error * task) :=
  r <- call (refreshAuth ops (Source t))
            (fun r => EvRefreshAuth SourceEnd (Source t) r.1) ;;
  ret (r.1, withSource t r.2).

Definition refreshTarget (t : task) : M (option error * task) :=
  r <- call (refreshAuth ops (Target t))
            (fun r => EvRefreshAuth TargetEnd (Target t) r.1) ;;
  ret (r.1, withTarget t r.2).

Definition ensureTarget (t : task) (trgt : string) : M (option error) :=
  call (ensureTargetExists ops t trgt) (EvEnsure trgt).

(** The body of the loop over [t.Mappings]; it returns the task as the
    two refreshes left it. *)
Definition syncMapping (t : task) (m : mapping) : M task :=
  LogInfo "mapping '%s' to '%s'" [MFrom m; MTo m] ;;
  let '(src, trgt) := mappingRefs ops t m in
  r1 <- refreshSource t ;;
  LogError r1.1 ;;
  r2 <- refreshTarget r1.2 ;;
  LogError r2.1 ;;
  let t2 := r2.2 in
  e3 <- ensureTarget t2 trgt ;;
  LogError e3 ;;
  e4 <- Sync src (Auth (Source t2)) trgt (Auth (Target t2)) (MTags m)
          (Verbose t2) ;;
  LogError e4 ;;
  ret t2.

Fixpoint syncMappings (t : task) (ms : list mapping) : M task :=
  match ms with
  | [] => ret t
  | m :: rest =>
      t' <- syncMapping t m ;;
      syncMappings t' rest
  end.

Definition SyncTask (t : task) : M task :=
  LogInfo "syncing task '%s': '%s' --> '%s'"
    [Name t; Registry (Source t); Registry (Target t)] ;;
  t' <- syncMappings t (Mappings t) ;;
  LogPrintln ;;
  ret t'.

(** *** [SyncFromConfig] *)

(** [time.Second], in nanoseconds. *)
Definition Second : Z := 1000000000.

(** The loop over the one-off tasks. *)
Fixpoint oneOffTasks (ts : list task) : M unit :=
  match ts with
  | [] => ret tt
  | t :: rest =>
      (if (Interval t =? 0)%Z then SyncTask t ;; ret tt else ret tt) ;;
      oneOffTasks rest
  end.

(** The loop that starts the tickers; it returns [ticking]. *)
Fixpoint startTickers (ts : list task) (ticking : bool) : M bool :=
  match ts with
  | [] => ret ticking
  | t :: rest =>
      if (0 <? Interval t)%Z
      then call (fun w => (tt, startTicking ops t w))
                (fun _ => EvStartTicking t) ;;
           startTickers rest true
      else startTickers rest ticking
  end.

(** [for ticking { ... }].  The loop has no exit of its own; [fuel]
    bounds the number of rounds run, and the result tells whether the
    loop was left ([true]) or is still going when the fuel is spent. *)
Fixpoint tickLoop (fuel : nat) (ticking : bool) : M bool :=
  if ticking then
    match fuel with
    | O => ret false
    | S k =>
        LogPrintln ;;
        LogInfo "waiting for next sync task..." [] ;;
        LogPrintln ;;
        t <- call (recv ops) EvRecv ;;
        SyncTask t ;;
        tickLoop k ticking
    end
  else ret true.

(** How far a run of [SyncFromConfig] got: it returned, or it is still
    in the loop. *)
Inductive outcome : Type :=
| Returned (err : option error)
| Running.

Definition SyncFromConfig (fuel : nat) (conf : syncConfig) : M outcome :=
  LogPrintln ;;
  LogInfo "pinging Docker daemon..." [] ;;
  err <- call (docker.Ping client 30 (10 * Second)) (EvPing 30 (10 * Second)) ;;
  match err with
  | Some e => LogError (Some e) ;; ret tt
  | None => LogInfo "ok" []
  end ;;
  oneOffTasks (Tasks conf) ;;
  ticking <- startTickers (Tasks conf) false ;;
  left <- tickLoop fuel ticking ;;
  if left : bool
  then LogInfo "all done" [] ;; ret (Returned None)
  else ret Running.

End Engine.

Arguments store : clear implicits.
Arguments M : clear implicits.

(** ** Reading traces *)

(** The calls of each kind in a trace, in order, with their arguments. *)
Definition pullCall (ev : Event) : list (string * bool * string * bool) :=
  match ev with
  | EvPull ref allTags auth verbose _ => [(ref, allTags, auth, verbose)]
  | _ => []
  end.

Definition listCall (ev : Event) : list string :=
  match ev with
  | EvList ref _ _ => [ref]
  | _ => []
  end.

Definition tagCall (ev : Event) : list (string * string) :=
  match ev with
  | EvTag id ref _ => [(id, ref)]
  | _ => []
  end.

Definition pushCall (ev : Event) : list (string * bool * string * bool) :=
  match ev with
  | EvPush ref allTags auth verbose _ => [(ref, allTags, auth, verbose)]
  | _ => []
  end.

(** The images a list call handed back, and those of the calls that
    succeeded. *)
Definition listed (ev : Event) : list docker.Image :=
  match ev with
  | EvList _ imgs _ => imgs
  | _ => []
  end.

Definition listedOk (ev : Event) : list docker.Image :=
  match ev with
  | EvList _ imgs None => imgs
  | _ => []
  end.

Definition pullCalls (tr : list Event) := flat_map pullCall tr.
Definition listCalls (tr : list Event) := flat_map listCall tr.
Definition tagCalls (tr : list Event) := flat_map tagCall tr.
Definition pushCalls (tr : list Event) := flat_map pushCall tr.
Definition enumerated (tr : list Event) := flat_map listed tr.
Definition enumeratedOk (tr : list Event) := flat_map listedOk tr.

(** Calls that failed. *)
Definition pullFailed (ev : Event) : bool :=
  match ev with EvPull _ _ _ _ (Some _) => true | _ => false end.

Definition listFailed (ev : Event) : bool :=
  match ev with EvList _ _ (Some _) => true | _ => false end.

Definition tagFailed (ev : Event) : bool :=
  match ev with EvTag _ _ (Some _) => true | _ => false end.

Definition pushFailed (ev : Event) : bool :=
  match ev with EvPush _ _ _ _ (Some _) => true | _ => false end.

Definition pullsOk (tr : list Event) : Prop :=
  Forall (fun ev => pullFailed ev = false) tr.

Definition tagsOk (tr : list Event) : Prop :=
  Forall (fun ev => tagFailed ev = false) tr.

Definition pushesOk (tr : list Event) : Prop :=
  Forall (fun ev => pushFailed ev = false) tr.

(** The events of each phase of [Sync]. *)
Definition isPullEv (ev : Event) : bool :=
  match ev with EvPull _ _ _ _ _ => true | _ => false end.

Definition isListEv (ev : Event) : bool :=
  match ev with EvList _ _ _ | EvLogError _ => true | _ => false end.

Definition isTagEv (ev : Event) : bool :=
  match ev with EvTag _ _ _ => true | _ => false end.

Definition isPushEv (ev : Event) : bool :=
  match ev with EvPush _ _ _ _ _ => true | _ => false end.

Definition only (p : Event → bool) (tr : list Event) : Prop :=
  Forall (fun ev => p ev = true) tr.

(** The errors written to standard error. *)
Definition loggedError (ev : Event) : list error :=
  match ev with
  | EvLogError e => [e]
  | _ => []
  end.

Definition loggedErrors (tr : list Event) := flat_map loggedError tr.

(** The contract of [ListImages] that [Sync] relies on when it appends
    what a failed call returned: a failed call returns no image. *)
Definition listFailsEmpty {W : Type} (client : docker.Client W) : Prop :=
  ∀ ref w imgs e w',
    docker.ListImages client ref w = (imgs, Some e, w') → imgs = [].

(** The tag calls [tag] makes for one image and for a list of images. *)
Definition tagsFor (targetRepo targetPath : string) (img : docker.Image)
  : list (string * string) :=
  map (fun tg => (docker.ID img,
                  targetRepo +:+ "/" +:+ targetPath +:+ ":" +:+ tg))
      (docker.Tags img).

Definition tagsForAll (targetRepo targetPath : string)
    (imgs : list docker.Image) : list (string * string) :=
  flat_map (tagsFor targetRepo targetPath) imgs.

(** The image [tag] builds from a source image. *)
Definition retagged (targetRepo targetPath : string) (img : docker.Image)
  : docker.Image :=
  docker.mkImage (docker.ID img) targetRepo targetPath (docker.Tags img).

(** ** The shape of a run of [Sync]

    What a trace of each phase looks like, whatever the world answers. *)

Inductive optShape (ev : option error → Event) (wrap : error → error)
  : list Event → option error → Prop :=
| optOk : optShape ev wrap [ev None] None
| optFail e : optShape ev wrap [ev (Some e)] (Some (wrap e)).

(** A pull of one tag that succeeded. *)
Definition okPull (srcRef srcAuth : string) (verbose : bool) (tg : string)
  : Event :=
  EvPull (refTagged srcRef tg) false srcAuth verbose None.

Inductive pullsShape (srcRef srcAuth : string) (verbose : bool)
  : list string → list Event → option error → Prop :=
| pullsNil : pullsShape srcRef srcAuth verbose [] [] None
| pullsOkCons tg rest tr r :
    pullsShape srcRef srcAuth verbose rest tr r →
    pullsShape srcRef srcAuth verbose (tg :: rest)
      (EvPull (refTagged srcRef tg) false srcAuth verbose None :: tr) r
| pullsFail tg rest e :
    pullsShape srcRef srcAuth verbose (tg :: rest)
      [EvPull (refTagged srcRef tg) false srcAuth verbose (Some e)]
      (Some (errorPulling (refTagged srcRef tg) e)).

(** The pull phase: one all-tags pull, or the loop over the tags. *)
Definition pullPhase (srcRef srcAuth : string) (verbose : bool)
    (tags : list string) (tr : list Event) (r : option error) : Prop :=
  match tags with
  | [] => optShape (EvPull srcRef true srcAuth verbose) (errorPulling srcRef)
            tr r
  | _ :: _ => pullsShape srcRef srcAuth verbose tags tr r
  end.

(** One list call, with the line logged when it fails. *)
Definition listStep (ref : string) (wrap : error → error)
    (imgs : list docker.Image) (res : option error) : list Event :=
  EvList ref imgs res ::
  match res with
  | Some e => [EvLogError (wrap e)]
  | None => []
  end.

(** The list phase; [answer] is what is known of each answer of the
    client. *)
Inductive listsShape (answer : string → list docker.Image → option error → Prop)
    (srcRef : string)
  : list string → list Event → list docker.Image → Prop :=
| listsNil : listsShape answer srcRef [] [] []
| listsCons tg rest imgs res tr all :
    answer (refTagged srcRef tg) imgs res →
    listsShape answer srcRef rest tr all →
    listsShape answer srcRef (tg :: rest)
      (listStep (refTagged srcRef tg) (errorListing (refTagged srcRef tg))
         imgs res ++ tr)
      (imgs ++ all).

Definition listPhase (answer : string → list docker.Image → option error → Prop)
    (srcRef : string) (tags : list string)
    (tr : list Event) (all : list docker.Image) : Prop :=
  match tags with
  | [] => ∃ res, answer srcRef all res ∧
                 tr = listStep srcRef (errorListingAll srcRef) all res
  | _ :: _ => listsShape answer srcRef tags tr all
  end.

(** What is known of the answers in a trace. *)
Definition answerEv (answer : string → list docker.Image → option error → Prop)
    (ev : Event) : Prop :=
  match ev with
  | EvList ref imgs res => answer ref imgs res
  | _ => True
  end.

(** The answers a client can give to [ListImages]. *)
Definition answered {W : Type} (client : docker.Client W) (ref : string)
    (imgs : list docker.Image) (res : option error) : Prop :=
  ∃ w w', docker.ListImages client ref w = (imgs, res, w').

Inductive tagTagsShape (id ref : string)
  : list string → list Event → option error → Prop :=
| tagTagsNil : tagTagsShape id ref [] [] None
| tagTagsOk tg rest tr r :
    tagTagsShape id ref rest tr r →
    tagTagsShape id ref (tg :: rest)
      (EvTag id (ref +:+ ":" +:+ tg) None :: tr) r
| tagTagsFail tg rest e :
    tagTagsShape id ref (tg :: rest)
      [EvTag id (ref +:+ ":" +:+ tg) (Some e)] (Some e).

Inductive tagShape (targetRepo targetPath : string)
  : list docker.Image → list Event → option error → Prop :=
| tagNil : tagShape targetRepo targetPath [] [] None
| tagOk img rest tr1 tr r :
    tagTagsShape (docker.ID img) (targetRepo +:+ "/" +:+ targetPath)
      (docker.Tags img) tr1 None →
    tagShape targetRepo targetPath rest tr r →
    tagShape targetRepo targetPath (img :: rest) (tr1 ++ tr) r
| tagFail img rest tr1 e :
    tagTagsShape (docker.ID img) (targetRepo +:+ "/" +:+ targetPath)
      (docker.Tags img) tr1 (Some e) →
    tagShape targetRepo targetPath (img :: rest) tr1 (Some e).

Section SyncShape.

Variable answer : string → list docker.Image → option error → Prop.
Variable SplitRef : string → string * string * string.
Variable RefWithTags : docker.Image → string.
Variables srcRef srcAuth trgtRef trgtAuth : string.
Variable tags : list string.
Variable verbose : bool.

Definition logImage (img : docker.Image) : Event :=
  EvLog "INFO" " - %s" [RefWithTags img].

(** The trace up to the end of the list phase, and up to the end of the
    tag phase. *)
Definition uptoList (tr1 tr2 : list Event) (imgs : list docker.Image)
  : list Event :=
  EvLog "INFO" "pulling source image '%s'" [srcRef] :: tr1 ++
  EvLog "INFO" "relevant tags" [] :: tr2 ++
  map logImage imgs.

Definition uptoTag (tr1 tr2 : list Event) (imgs : list docker.Image)
    (tr3 : list Event) : list Event :=
  uptoList tr1 tr2 imgs ++
  EvLog "INFO" "setting tags for target image '%s'" [trgtRef] :: tr3.

Inductive SyncShape : list Event → option error → Prop :=
| syncPullFailed tr1 e :
    pullPhase srcRef srcAuth verbose tags tr1 (Some e) →
    SyncShape (EvLog "INFO" "pulling source image '%s'" [srcRef] :: tr1)
      (Some e)
| syncTagFailed tr1 tr2 imgs tr3 e :
    pullPhase srcRef srcAuth verbose tags tr1 None →
    listPhase answer srcRef tags tr2 imgs →
    tagShape (SplitRef trgtRef).1.1 (SplitRef trgtRef).1.2 imgs tr3 (Some e) →
    SyncShape (uptoTag tr1 tr2 imgs tr3) (Some (errorTagging e))
| syncPushed tr1 tr2 imgs tr3 tr4 r :
    pullPhase srcRef srcAuth verbose tags tr1 None →
    listPhase answer srcRef tags tr2 imgs →
    tagShape (SplitRef trgtRef).1.1 (SplitRef trgtRef).1.2 imgs tr3 None →
    optShape (EvPush trgtRef true trgtAuth verbose) errorPushing tr4 r →
    SyncShape
      (uptoTag tr1 tr2 imgs tr3 ++
       EvLog "INFO" "pushing target image '%s'" [trgtRef] :: tr4)
      r.

End SyncShape.

Arguments uptoList : simpl never.
Arguments uptoTag : simpl never.

(** ** What the claims speak of *)

(** The pulls and the list calls of a run in which every pull succeeds. *)
Definition expectedPulls (srcRef srcAuth : string) (verbose : bool)
    (tags : list string) : list (string * bool * string * bool) :=
  match tags with
  | [] => [(srcRef, true, srcAuth, verbose)]
  | _ :: _ => map (fun tg => (refTagged srcRef tg, false, srcAuth, verbose)) tags
  end.

Definition expectedLists (srcRef : string) (tags : list string) : list string :=
  match tags with
  | [] => [srcRef]
  | _ :: _ => map (refTagged srcRef) tags
  end.

(** The line [Sync] logs for a list call that failed. *)
Definition listError (tags : list string) (ev : Event) : list error :=
  match ev with
  | EvList ref _ (Some e) =>
      match tags with
      | [] => [errorListingAll ref e]
      | _ :: _ => [errorListing ref e]
      end
  | _ => []
  end.

Definition listErrors (tags : list string) (tr : list Event) : list error :=
  flat_map (listError tags) tr.

(** The steps of [SyncTask] on a mapping, as they show in a trace: the
    line that opens the mapping, the two refreshes, the creation of the
    target and the first line of [Sync]. *)
Inductive step : Type :=
| StMapping (from to : string)
| StRefresh (which : endpoint)
| StEnsure
| StSync.

Definition stepOf (ev : Event) : list step :=
  match ev with
  | EvLog _ format [from; to] =>
      if String.eqb format "mapping '%s' to '%s'"
      then [StMapping from to] else []
  | EvLog _ format [_] =>
      if String.eqb format "pulling source image '%s'" then [StSync] else []
  | EvRefreshAuth which _ _ => [StRefresh which]
  | EvEnsure _ _ => [StEnsure]
  | _ => []
  end.

Definition steps (tr : list Event) : list step := flat_map stepOf tr.

Definition stepsOfMapping (m : mapping) : list step :=
  [StMapping (MFrom m) (MTo m); StRefresh SourceEnd; StRefresh TargetEnd;
   StEnsure; StSync].

(** What [LogError] prints for the outcome of a call. *)
Definition logged (err : option error) : list Event :=
  match err with
  | Some e => [EvLogError e]
  | None => []
  end.

(** The marks of [SyncFromConfig] in a trace: the ping, the first line of
    each run of a task, the start of a ticker, a receive on the channel
    and the last line. *)
Inductive mark : Type :=
| MkPing (attempts sleep : Z)
| MkTask (name : string)
| MkStart (name : string)
| MkRecv (name : string)
| MkDone.

Definition markOf (ev : Event) : list mark :=
  match ev with
  | EvPing attempts sleep _ => [MkPing attempts sleep]
  | EvLog _ format [name; _; _] =>
      if String.eqb format "syncing task '%s': '%s' --> '%s'"
      then [MkTask name] else []
  | EvLog _ format [] =>
      if String.eqb format "all done" then [MkDone] else []
  | EvStartTicking t => [MkStart (Name t)]
  | EvRecv t => [MkRecv (Name t)]
  | _ => []
  end.

Definition marks (tr : list Event) : list mark := flat_map markOf tr.

Definition oneOff (t : task) : bool := (Interval t =? 0)%Z.
Definition recurring (t : task) : bool := (0 <? Interval t)%Z.

(** What [SyncTask] does for the mapping [m] that follows the mappings
    [pre] of a task: after the run of [pre], whatever it returned, the
    line of the mapping, the refresh of the source, the refresh of the
    target, the creation of the target and [Sync] with the credentials
    the refreshes left, each error being logged, and then the mappings
    [post]. *)
Definition runsMapping {W : Type} (client : docker.Client W) (ops : TaskOps W)
    (SplitRef : string → string * string * string)
    (RefWithTags : docker.Image → string)
    (t : task) (s : store W) (pre : list mapping) (m : mapping)
    (post : list mapping) : Prop :=
  let before := syncMappings client ops SplitRef RefWithTags t pre s in
  let t1 := result before in
  let s1 := final before in
  let refs := mappingRefs ops t1 m in
  let a1 := refreshAuth ops (Source t1) (world s1) in
  let a2 := refreshAuth ops (Target t1) a1.2 in
  let t2 := withTarget (withSource t1 a1.1.2) a2.1.2 in
  let a3 := ensureTargetExists ops t2 refs.2 a2.2 in
  let r4 := Sync client SplitRef RefWithTags refs.1 (Auth a1.1.2) refs.2
              (Auth a2.1.2) (MTags m) (Verbose t1) (mkStore a3.2 (heap s1)) in
  let after := syncMappings client ops SplitRef RefWithTags t2 post
                 (final r4) in
  trace (SyncTask client ops SplitRef RefWithTags t s) =
    EvLog "INFO" "syncing task '%s': '%s' --> '%s'"
      [Name t; Registry (Source t); Registry (Target t)] ::
    trace before ++
    [EvLog "INFO" "mapping '%s' to '%s'" [MFrom m; MTo m];
     EvRefreshAuth SourceEnd (Source t1) a1.1.1] ++ logged a1.1.1 ++
    [EvRefreshAuth TargetEnd (Target t1) a2.1.1] ++ logged a2.1.1 ++
    [EvEnsure refs.2 a3.1] ++ logged a3.1 ++
    trace r4 ++ logged (result r4) ++
    trace after ++ [EvLog "INFO" "" []].

(** The marks of a run of the tick loop in which the tasks [received]
    arrive. *)
Definition tickMarks (received : list task) : list mark :=
  flat_map (fun t => [MkRecv (Name t); MkTask (Name t)]) received.

(** The marks of a run of [SyncFromConfig] on the tasks [ts]: the ping
    with its budget, the one-off tasks in order, the tickers of the
    recurring tasks in order, and then the tick loop or, where no task
    recurs, the last line. *)
Definition configMarks (ts : list task) (received : list task) : list mark :=
  MkPing 30 10000000000 ::
  map (fun t => MkTask (Name t)) (List.filter oneOff ts) ++
  map (fun t => MkStart (Name t)) (List.filter recurring ts) ++
  (if existsb recurring ts then tickMarks received else [MkDone]).

(** ** A small world to run the engine in *)

Module Demo.

(** The world counts the calls made on it. *)
Definition fails (bad : list string) (ref : string) : option error :=
  if existsb (String.eqb ref) bad then Some "denied" else None.

Fixpoint lookupImages (table : list (string * list docker.Image))
    (ref : string) : list docker.Image :=
  match table with
  | [] => []
  | (r, imgs) :: rest =>
      if String.eqb r ref then imgs else lookupImages rest ref
  end.

(** A client on which the pulls of [badPull], the list calls of
    [badList], the tag calls that create a reference of [badTag] and the
    pushes of [badPush] fail, and whose images are those of [table]. *)
Definition client (badPull badList badTag badPush : list string)
    (table : list (string * list docker.Image)) : docker.Client nat :=
  docker.mkClient nat
    (fun _ _ w => (None, S w))
    (fun ref _ _ _ w => (fails badPull ref, S w))
    (fun ref w =>
       match fails badList ref with
       | Some e => ([], Some e, S w)
       | None => (lookupImages table ref, None, S w)
       end)
    (fun _ ref w => (fails badTag ref, S w))
    (fun ref _ _ _ w => (fails badPush ref, S w)).

(** A client without a daemon: every call fails. *)
Definition deaf : docker.Client nat :=
  docker.mkClient nat
    (fun _ _ w => (Some "no daemon", S w))
    (fun _ _ _ _ w => (Some "no daemon", S w))
    (fun _ w => ([], Some "no daemon", S w))
    (fun _ _ w => (Some "no daemon", S w))
    (fun _ _ _ _ w => (Some "no daemon", S w)).

(** [registry/path] is split at its first slash. *)
Fixpoint splitSlash (s : string) : string * string :=
  match s with
  | EmptyString => ("", "")
  | String c r =>
      if Ascii.eqb c "/"%char then ("", r)
      else let '(a, b) := splitSlash r in (String c a, b)
  end.

Definition SplitRef (ref : string) : string * string * string :=
  let '(a, b) := splitSlash ref in (a, b, "").

Definition RefWithTags (img : docker.Image) : string := docker.Ref img.

(** Task methods: the refreshes of the locations whose registry is in
    [badAuth] fail and leave the credential as it is, the others write
    a token; the channel delivers [ticks w] at its [w]-th use. *)
Definition ops (badAuth : list string) (ticks : nat → task) : TaskOps nat :=
  mkTaskOps nat
    (fun t m => (Registry (Source t) +:+ "/" +:+ MFrom m,
                 Registry (Target t) +:+ "/" +:+ MTo m))
    (fun l w =>
       match fails badAuth (Registry l) with
       | Some e => (Some e, l, S w)
       | None => (None, mkLocation (Registry l) "token", S w)
       end)
    (fun _ _ w => (None, S w))
    (fun _ w => S w)
    (fun w => (ticks w, S w)).

Definition alpine : docker.Image :=
  docker.mkImage "sha256:a1" "docker.io" "library/alpine" ["3.18"].

Definition alpine2 : docker.Image :=
  docker.mkImage "sha256:a2" "docker.io" "library/alpine" ["3.19"; "latest"].

Definition table : list (string * list docker.Image) :=
  [("docker.io/library/alpine", [alpine; alpine2]);
   ("docker.io/library/alpine:3.18", [alpine]);
   ("docker.io/library/alpine:3.19", [alpine2])].

Definition start : store nat := mkStore 0 [].

Definition mirror (tags : list string) : mapping :=
  mkMapping "library/alpine" "mirror/alpine" tags.

Definition once : task :=
  mkTask "once" (mkLocation "docker.io" "") (mkLocation "example.com" "")
    [mirror ["3.18"]; mirror ["3.19"]] 0 false.

Definition hourly : task :=
  mkTask "hourly" (mkLocation "docker.io" "") (mkLocation "example.com" "")
    [mirror []] 3600 false.

End Demo.

(** ** More readings of a trace *)

(** The phase of [Sync] a call belongs to. *)
Inductive phase : Type := PhPull | PhList | PhTag | PhPush.

Definition phaseOf (ev : Event) : list phase :=
  match ev with
  | EvPull _ _ _ _ _ => [PhPull]
  | EvList _ _ _ => [PhList]
  | EvTag _ _ _ => [PhTag]
  | EvPush _ _ _ _ _ => [PhPush]
  | _ => []
  end.

Definition phases (tr : list Event) : list phase := flat_map phaseOf tr.

(** The lines [Sync] logs for the images it found: the parameter of each
    line of format [" - %s"]. *)
Definition imageLine (ev : Event) : list string :=
  match ev with
  | EvLog _ format [line] => if String.eqb format " - %s" then [line] else []
  | _ => []
  end.

Definition imageLines (tr : list Event) : list string := flat_map imageLine tr.

(** A computation that leaves every image of the heap as it is. *)
Definition keepsHeap {W A : Type} (m : M W A) : Prop :=
  ∀ s, heap s `prefix_of` heap (final (m s)).

(** A task [SyncFromConfig] runs or gives a ticker: its interval is not
    negative. *)
Definition scheduled (t : task) : bool := (0 <=? Interval t)%Z.

(** ** What the log functions write *)

(** ["\n"]. *)
Definition newline : string := String (ascii_of_nat 10) EmptyString.

(** [strings.HasSuffix], as the Go library defines it:
    [len(s) >= len(suffix) && s[len(s)-len(suffix):] == suffix]. *)
Definition HasSuffix (s suffix : string) : bool :=
  (String.length suffix <=? String.length s)%nat &&
  String.eqb
    (substring (String.length s - String.length suffix)
       (String.length suffix) s)
    suffix.

(** What [log] prints on standard output: [msg] is the message after
    [fmt.Sprintf(msg, params...)], [now] is
    [time.Now().Format(time.RFC3339)]. *)
Definition logText (toTerminal : bool) (now level msg : string) : string :=
  let msg :=
    if toTerminal then msg else now +:+ " [" +:+ level +:+ "] " +:+ msg in
  if HasSuffix msg newline then msg else msg +:+ newline.

(** What [LogError] prints on standard error for an error that is not
    [nil]. *)
Definition errorText (toTerminal : bool) (now : string) (err : error)
  : string :=
  if toTerminal then err +:+ newline
  else now +:+ " [ERROR] " +:+ err +:+ newline.

(** ** [New] *)

(** The [io.Writer] handed to the client: the [Sync] itself, or [nil]. *)
Inductive writer : Type := SyncWriter.

Section Construction.

(** [*docker.Client]. *)
Variable C : Type.

(** [client.DefaultDockerHost], of the Docker library. *)
Variable DefaultDockerHost : string.

(** [docker.NewClient]. *)
Variable NewClient : string → string → option writer → C + error.

(** [New] returns the [Sync], given here by the client it holds, and an
    error. *)
Definition New (toTerminal : bool) (dockerhost api : string)
  : option C * option error :=
  let out := if toTerminal then None else Some SyncWriter in
  let dockerhost :=
    if String.eqb dockerhost "" then DefaultDockerHost else dockerhost in
  let api := if String.eqb api "" then "1.24" else api in
  match NewClient dockerhost api out with
  | inr err => (None, Some ("cannot create Docker client: " +:+ err))
  | inl cli => (Some cli, None)
  end.

End Construction.

(** ** Test support for ECR *)

Module registries.

(** An error value: one that is an [awserr.Error], with its code, or any
    other. *)
Inductive goError : Type :=
| AwsErr (code message : string)
| OtherErr (message : string).

(** How a helper leaves the test. *)
Inductive outcome : Type :=
| Continues
| Skipped (missing : list string)
| Fatal (err : goError).

(** The calls made on AWS. *)
Inductive awsCall : Type :=
| NewSession
| DeleteRepository (region : string) (force : bool) (name : string).

Section Helpers.

(** [os.Getenv]. *)
Variable Getenv : string → string.

(** The names [test.EnvAccessKeyID], [test.EnvSecretAccessKey] and
    [test.EnvECRRegistry]. *)
Variables EnvAccessKeyID EnvSecretAccessKey EnvECRRegistry : string.

Definition SkipIfECRNotConfigured : outcome :=
  let missing := [] in
  let missing :=
    if String.eqb (Getenv EnvAccessKeyID) ""
    then missing ++ [EnvAccessKeyID] else missing in
  let missing :=
    if String.eqb (Getenv EnvSecretAccessKey) ""
    then missing ++ [EnvSecretAccessKey] else missing in
  let missing :=
    if String.eqb (Getenv EnvECRRegistry) ""
    then missing ++ [EnvECRRegistry] else missing in
  if (0 <? length missing)%nat then Skipped missing else Continues.

(** [Location.GetECR]: whether the registry is an ECR one, and its
    region. *)
Variable GetECR : string → bool * string * string.

(** The answers of [session.NewSession] and of [DeleteRepository]. *)
Variable newSession : option goError.
Variable deleteRepository : string → bool → string → option goError.

(** [ecr.ErrCodeRepositoryNotFoundException]. *)
Variable ErrCodeRepositoryNotFoundException : string.

(** [RemoveECRRepo] on the registry and the repository of the test
    parameters: how it leaves the test, and the calls it made. *)
Definition RemoveECRRepo (ECRRegistry ECRRepo : string)
  : outcome * list awsCall :=
  let '(isEcr, region, _) := GetECR ECRRegistry in
  if negb isEcr then (Continues, [])
  else
    match newSession with
    | Some err => (Fatal err, [NewSession])
    | None =>
        let calls := [NewSession; DeleteRepository region true ECRRepo] in
        match deleteRepository region true ECRRepo with
        | Some err =>
            match err with
            | AwsErr code _ =>
                if String.eqb code ErrCodeRepositoryNotFoundException
                then (Continues, calls)
                else (Fatal err, calls)
            | OtherErr _ => (Fatal err, calls)
            end
        | None => (Continues, calls)
        end
    end.

End Helpers.

End registries.

(** ** Running computations *)

Section Runs.

Context {W : Type}.

Lemma result_ret {A : Type} (a : A) (s : store W) : result (ret a s) = a.
Proof. reflexivity. Qed.

Lemma final_ret {A : Type} (a : A) (s : store W) : final (ret a s) = s.
Proof. reflexivity. Qed.

Lemma trace_ret {A : Type} (a : A) (s : store W) : trace (ret a s) = [].
Proof. reflexivity. Qed.

Lemma result_bind {A B : Type} (m : M W A) (f : A → M W B) (s : store W) :
  result (bind m f s) = result (f (result (m s)) (final (m s))).
Proof.
  unfold bind, result, final. destruct (m s) as [[a s1] t1]; simpl.
  by destruct (f a s1) as [[b s2] t2].
Qed.

Lemma final_bind {A B : Type} (m : M W A) (f : A → M W B) (s : store W) :
  final (bind m f s) = final (f (result (m s)) (final (m s))).
Proof.
  unfold bind, result, final. destruct (m s) as [[a s1] t1]; simpl.
  by destruct (f a s1) as [[b s2] t2].
Qed.

Lemma trace_bind {A B : Type} (m : M W A) (f : A → M W B) (s : store W) :
  trace (bind m f s) = trace (m s) ++ trace (f (result (m s)) (final (m s))).
Proof.
  unfold bind, result, final, trace. destruct (m s) as [[a s1] t1]; simpl.
  by destruct (f a s1) as [[b s2] t2].
Qed.

Lemma result_call {A : Type} (f : W → A * W) (ev : A → Event) (s : store W) :
  result (call f ev s) = (f (world s)).1.
Proof. unfold call, result. by destruct (f (world s)). Qed.

Lemma final_call {A : Type} (f : W → A * W) (ev : A → Event) (s : store W) :
  final (call f ev s) = mkStore (f (world s)).2 (heap s).
Proof. unfold call, final. by destruct (f (world s)). Qed.

Lemma trace_call {A : Type} (f : W → A * W) (ev : A → Event) (s : store W) :
  trace (call f ev s) = [ev (f (world s)).1].
Proof. unfold call, trace. by destruct (f (world s)). Qed.

Lemma final_emit (ev : Event) (s : store W) : final (emit ev s) = s.
Proof. reflexivity. Qed.

Lemma trace_emit (ev : Event) (s : store W) : trace (emit ev s) = [ev].
Proof. reflexivity. Qed.

Lemma final_LogInfo (msg : string) (ps : list string) (s : store W) :
  final (LogInfo msg ps s) = s.
Proof. reflexivity. Qed.

Lemma trace_LogInfo (msg : string) (ps : list string) (s : store W) :
  trace (LogInfo msg ps s) = [EvLog "INFO" msg ps].
Proof. reflexivity. Qed.

Lemma final_LogError (err : option error) (s : store W) :
  final (LogError err s) = s.
Proof. by destruct err. Qed.

Lemma trace_LogError (err : option error) (s : store W) :
  trace (LogError err s) =
  match err with Some e => [EvLogError e] | None => [] end.
Proof. by destruct err. Qed.

Lemma result_alloc (img : docker.Image) (s : store W) :
  result (alloc img s) = length (heap s).
Proof. reflexivity. Qed.

Lemma final_alloc (img : docker.Image) (s : store W) :
  final (alloc img s) = mkStore (world s) (heap s ++ [img]).
Proof. reflexivity. Qed.

Lemma trace_alloc (img : docker.Image) (s : store W) : trace (alloc img s) = [].
Proof. reflexivity. Qed.

Lemma result_load (p : ptr) (s : store W) : result (load p s) = heap s !!! p.
Proof. reflexivity. Qed.

Lemma final_load (p : ptr) (s : store W) : final (load p s) = s.
Proof. reflexivity. Qed.

Lemma trace_load (p : ptr) (s : store W) : trace (load p s) = [].
Proof. reflexivity. Qed.

(** Inversion of a run, for proofs that follow a computation step by
    step. *)
Lemma bind_inv {A B : Type} (m : M W A) (f : A → M W B) (s : store W)
    (b : B) (s2 : store W) (t : list Event) :
  bind m f s = (b, s2, t) →
  ∃ a s1 t1 t2, m s = (a, s1, t1) ∧ f a s1 = (b, s2, t2) ∧ t = t1 ++ t2.
Proof.
  unfold bind. destruct (m s) as [[a s1] t1].
  destruct (f a s1) as [[b' s2'] t2] eqn:Hf. intros [= <- <- <-].
  by exists a, s1, t1, t2.
Qed.

Lemma ret_inv {A : Type} (a b : A) (s s' : store W) (t : list Event) :
  ret a s = (b, s', t) → b = a ∧ s' = s ∧ t = [].
Proof. by intros [= <- <- <-]. Qed.

Lemma emit_inv (ev : Event) (u : unit) (s s' : store W) (t : list Event) :
  emit ev s = (u, s', t) → s' = s ∧ t = [ev].
Proof. by intros [= <- <-]. Qed.

Lemma LogInfo_inv (msg : string) (ps : list string) (u : unit)
    (s s' : store W) (t : list Event) :
  LogInfo msg ps s = (u, s', t) → s' = s ∧ t = [EvLog "INFO" msg ps].
Proof. by intros [= <- <-]. Qed.

Lemma run_eta {A : Type} (r : A * store W * list Event) :
  r = (result r, final r, trace r).
Proof. by destruct r as [[a s] t]. Qed.

End Runs.

Create Rewrite HintDb run.

#[export] Hint Rewrite @result_ret @final_ret @trace_ret
  @result_bind @final_bind @trace_bind
  @result_call @final_call @trace_call
  @final_emit @trace_emit @final_LogInfo @trace_LogInfo
  @final_LogError @trace_LogError
  @result_alloc @final_alloc @trace_alloc
  @result_load @final_load @trace_load @app_nil_r : run.

Ltac run :=
  repeat (progress (autorewrite with run; cbn [world heap fst snd app])).

Ltac run_in H :=
  repeat (progress (autorewrite with run in H;
                    cbn [world heap fst snd app] in H)).

(** ** The heap *)

Section Heap.

Context {W : Type}.

Lemma lookup_total_fresh (h l : list docker.Image) (i : nat) :
  i < length l → (h ++ l) !!! (length h + i)%nat = l !!! i.
Proof.
  intros Hi. rewrite !list_lookup_total_alt, lookup_app_r by lia.
  by replace (length h + i - length h)%nat with i by lia.
Qed.

Lemma lookup_total_old (h l : list docker.Image) (p : nat) :
  p < length h → (h ++ l) !!! p = h !!! p.
Proof.
  intros Hp. by rewrite !list_lookup_total_alt, lookup_app_l.
Qed.

Lemma map_lookup_fresh (h l : list docker.Image) :
  map (fun p => (h ++ l) !!! p) (seq (length h) (length l)) = l.
Proof.
  revert h. induction l as [|x l IH]; intros h; [done|]. simpl. f_equal.
  - by rewrite list_lookup_total_middle.
  - specialize (IH (h ++ [x])). rewrite length_app in IH. simpl in IH.
    rewrite <- app_assoc in IH. simpl in IH.
    by replace (S (length h)) with (length h + 1)%nat by lia.
Qed.

Lemma allocAll_run (imgs : list docker.Image) (s : store W) :
  result (allocAll imgs s) = seq (length (heap s)) (length imgs) ∧
  final (allocAll imgs s) = mkStore (world s) (heap s ++ imgs) ∧
  trace (allocAll imgs s) = [].
Proof.
  revert s. induction imgs as [|img imgs IH]; intros s; simpl.
  - run. by destruct s.
  - run. destruct (IH (mkStore (world s) (heap s ++ [img]))) as (Hr & Hf & Ht).
    rewrite Hr, Hf, Ht. cbn [world heap]. rewrite length_app. simpl.
    rewrite <- app_assoc. simpl.
    by replace (length (heap s) + 1)%nat with (S (length (heap s))) by lia.
Qed.

End Heap.

(** ** The phases of [Sync] *)

Section Phases.

Context {W : Type}.
Variable client : docker.Client W.
Variable SplitRef : string → string * string * string.
Variable RefWithTags : docker.Image → string.

Lemma pull_run (ref auth : string) (allTags verbose : bool) (s : store W) :
  let a := docker.PullImage client ref allTags auth verbose (world s) in
  result (pull client ref auth allTags verbose s) = a.1 ∧
  final (pull client ref auth allTags verbose s) = mkStore a.2 (heap s) ∧
  trace (pull client ref auth allTags verbose s) =
    [EvPull ref allTags auth verbose a.1].
Proof. unfold pull. by run. Qed.

Lemma pullTags_shape (srcRef srcAuth : string) (verbose : bool)
    (tags : list string) (s : store W) :
  let r := pullTags client srcRef srcAuth verbose tags s in
  pullsShape srcRef srcAuth verbose tags (trace r) (result r) ∧
  heap (final r) = heap s.
Proof.
  revert s. induction tags as [|tg rest IH]; intros s; simpl.
  - split; [constructor | done].
  - run.
    destruct (pull_run (refTagged srcRef tg) srcAuth false verbose s)
      as (Hr & Hf & Ht).
    rewrite Hr, Hf, Ht.
    destruct (docker.PullImage client _ _ _ _ (world s)) as [[e|] w]; simpl.
    + run. split; [constructor | done].
    + destruct (IH (mkStore w (heap s))) as [Hs Hh].
      split; [by constructor | done].
Qed.

Lemma listImages_run (ref : string) (s : store W) :
  let a := docker.ListImages client ref (world s) in
  result (listImages client ref s) =
    (seq (length (heap s)) (length a.1.1), a.1.2) ∧
  final (listImages client ref s) = mkStore a.2 (heap s ++ a.1.1) ∧
  trace (listImages client ref s) = [EvList ref a.1.1 a.1.2].
Proof.
  unfold listImages. run.
  destruct (docker.ListImages client ref (world s)) as [[imgs err] w]; simpl.
  destruct (allocAll_run imgs (mkStore w (heap s))) as (Hr & Hf & Ht).
  simpl in Hr, Hf. by rewrite Hr, Hf, Ht.
Qed.

Lemma listTags_shape (srcRef : string) (tags : list string)
    (acc : list ptr) (s : store W) :
  let r := listTags client srcRef tags acc s in
  ∃ all,
    listsShape (answered client) srcRef tags (trace r) all ∧
    result r = acc ++ seq (length (heap s)) (length all) ∧
    heap (final r) = heap s ++ all.
Proof.
  revert acc s. induction tags as [|tg rest IH]; intros acc s; simpl.
  - exists []. run. split; [constructor | done].
  - run.
    destruct (listImages_run (refTagged srcRef tg) s) as (Hr & Hf & Ht).
    rewrite Hr, Hf, Ht.
    destruct (docker.ListImages client _ (world s)) as [[imgs err] w] eqn:Hans;
      simpl.
    assert (Ha : answered client (refTagged srcRef tg) imgs err)
      by (by exists (world s), w).
    destruct (IH (acc ++ seq (length (heap s)) (length imgs))
                (mkStore w (heap s ++ imgs))) as (all & Hs & Hres & Hh).
    cbn [heap] in Hres, Hh.
    exists (imgs ++ all).
    destruct err as [e|]; run; (split; [|split]).
    + exact (listsCons _ srcRef tg rest imgs (Some e) _ _ Ha Hs).
    + by rewrite Hres, !length_app, seq_app, <- app_assoc.
    + by rewrite Hh, app_assoc.
    + exact (listsCons _ srcRef tg rest imgs None _ _ Ha Hs).
    + by rewrite Hres, !length_app, seq_app, <- app_assoc.
    + by rewrite Hh, app_assoc.
Qed.

Lemma logImages_run (ps : list ptr) (s : store W) :
  final (logImages RefWithTags ps s) = s ∧
  trace (logImages RefWithTags ps s) =
    map (fun p => logImage RefWithTags (heap s !!! p)) ps.
Proof.
  induction ps as [|p ps [IHf IHt]]; simpl; [done|].
  run. by rewrite IHf, IHt.
Qed.

Lemma tagTags_shape (id ref : string) (tags : list string) (s : store W) :
  let r := tagTags client id ref tags s in
  tagTagsShape id ref tags (trace r) (result r) ∧ heap (final r) = heap s.
Proof.
  revert s. induction tags as [|tg rest IH]; intros s; simpl.
  - split; [constructor | done].
  - run.
    destruct (docker.TagImage client id _ (world s)) as [[e|] w]; simpl.
    + run. split; [constructor | done].
    + destruct (IH (mkStore w (heap s))) as [Hs Hh].
      split; [by constructor | done].
Qed.

Lemma map_lookup_old (h l : list docker.Image) (ps : list ptr) :
  Forall (fun p => p < length h) ps →
  map (fun p => (h ++ l) !!! p) ps = map (fun p => h !!! p) ps.
Proof.
  induction 1 as [|p ps Hp _ IH]; simpl; [done|].
  by rewrite IH, lookup_total_old.
Qed.

Lemma tagImages_shape (targetRepo targetPath : string) (ps acc : list ptr)
    (s : store W) :
  Forall (fun p => p < length (heap s)) ps →
  let r := tagImages client targetRepo targetPath ps acc s in
  tagShape targetRepo targetPath (map (fun p => heap s !!! p) ps)
    (trace r) (result r).2 ∧
  ∃ news,
    heap (final r) = heap s ++ news ∧
    ((result r).2 = None →
     (result r).1 = acc ++ seq (length (heap s)) (length ps) ∧
     news = map (fun p => retagged targetRepo targetPath (heap s !!! p)) ps).
Proof.
  revert acc s. induction ps as [|p ps IH]; intros acc s Hps; simpl.
  - run. split; [constructor|]. exists []. by run.
  - apply Forall_cons in Hps as [Hp Hps]. run.
    rewrite list_lookup_total_middle by done.
    set (img := heap s !!! p).
    set (new := docker.mkImage (docker.ID img) targetRepo targetPath
                  (docker.Tags img)).
    set (s1 := mkStore (world s) (heap s ++ [new])).
    destruct (tagTags_shape (docker.ID img) (docker.Ref new)
                (docker.Tags img) s1) as [Hs Hh].
    destruct (result (tagTags client (docker.ID img) (docker.Ref new)
                        (docker.Tags img) s1)) as [e|] eqn:Hres.
    + run. split; [by apply tagFail|].
      exists [new]. by rewrite Hh.
    + set (s2 := final (tagTags client (docker.ID img) (docker.Ref new)
                          (docker.Tags img) s1)) in *.
      clearbody s2.
      assert (Hps2 : Forall (fun q => q < length (heap s2)) ps).
      { rewrite Hh. subst s1. cbn [heap]. rewrite length_app.
        eapply Forall_impl; [exact Hps|]. simpl. lia. }
      destruct (IH (acc ++ [length (heap s)]) s2 Hps2)
        as (Hshape & news & Hheap & Hok).
      rewrite Hh in Hshape, Hheap, Hok. subst s1. cbn [heap] in *.
      rewrite map_lookup_old in Hshape by done.
      split; [by apply tagOk|].
      exists (new :: news). split.
      * by rewrite Hheap, <- app_assoc.
      * intros Hnone. destruct (Hok Hnone) as [Hr1 Hr2]. split.
        -- rewrite Hr1, length_app, <- app_assoc. simpl.
           by replace (length (heap s) + 1)%nat with (S (length (heap s)))
             by lia.
        -- rewrite Hr2. simpl. f_equal.
           apply map_ext_in. intros q Hq. unfold retagged.
           apply list_elem_of_In in Hq.
           rewrite Forall_forall in Hps.
           by rewrite lookup_total_old by (by apply Hps).
Qed.

Lemma tag_shape (ps : list ptr) (targetRef : string) (s : store W) :
  Forall (fun p => p < length (heap s)) ps →
  let r := tag client SplitRef ps targetRef s in
  let targetRepo := (SplitRef targetRef).1.1 in
  let targetPath := (SplitRef targetRef).1.2 in
  tagShape targetRepo targetPath (map (fun p => heap s !!! p) ps)
    (trace r) (result r).2 ∧
  ∃ news,
    heap (final r) = heap s ++ news ∧
    ((result r).2 = None →
     (result r).1 = seq (length (heap s)) (length ps) ∧
     news = map (fun p => retagged targetRepo targetPath (heap s !!! p)) ps).
Proof.
  intros Hps. unfold tag. destruct (SplitRef targetRef) as [[repo path] tg].
  simpl. exact (tagImages_shape repo path ps [] s Hps).
Qed.

Lemma seq_below (n k : nat) : Forall (fun p => p < n + k) (seq n k).
Proof.
  apply Forall_forall. intros p Hp. apply list_elem_of_In, in_seq in Hp. lia.
Qed.

Lemma pullPhase_run (srcRef srcAuth : string) (verbose : bool)
    (tags : list string) (s s1 : store W) (err : option error)
    (t1 : list Event) :
  match tags with
  | [] =>
      bind (pull client srcRef srcAuth true verbose)
        (fun err =>
           match err with
           | Some e => ret (Some (errorPulling srcRef e))
           | None => ret None
           end)
  | _ :: _ => pullTags client srcRef srcAuth verbose tags
  end s = (err, s1, t1) →
  pullPhase srcRef srcAuth verbose tags t1 err ∧ heap s1 = heap s.
Proof.
  destruct tags as [|tg rest]; intros H.
  - apply bind_inv in H as (e0 & s0 & t0 & t0' & Hp & H & ->).
    destruct (pull_run srcRef srcAuth true verbose s) as (Hr & Hf & Ht).
    rewrite Hp in Hr, Hf, Ht. unfold result, final, trace in *. simpl in *.
    subst s0 t0. destruct e0 as [e|];
      apply ret_inv in H as (-> & -> & ->); simpl;
      rewrite <- Hr; split; by try constructor.
  - destruct (pullTags_shape srcRef srcAuth verbose (tg :: rest) s)
      as [Hs Hh].
    rewrite H in Hs, Hh. by split.
Qed.

Lemma listPhase_run (srcRef : string) (tags : list string)
    (s s2 : store W) (srcImages : list ptr) (t2 : list Event) :
  match tags with
  | [] =>
      bind (listImages client srcRef)
        (fun r =>
           let '(srcImages, err) := r in
           match err with
           | Some e =>
               bind (LogError (Some (errorListingAll srcRef e)))
                 (fun _ => ret srcImages)
           | None => ret srcImages
           end)
  | _ :: _ => listTags client srcRef tags []
  end s = (srcImages, s2, t2) →
  ∃ all,
    listPhase (answered client) srcRef tags t2 all ∧
    srcImages = seq (length (heap s)) (length all) ∧
    heap s2 = heap s ++ all.
Proof.
  destruct tags as [|tg rest]; intros H.
  - apply bind_inv in H as ([ps err] & s0 & t0 & t0' & Hl & H & ->).
    destruct (listImages_run srcRef s) as (Hr & Hf & Ht).
    rewrite Hl in Hr, Hf, Ht. unfold result, final, trace in *. simpl in *.
    destruct (docker.ListImages client srcRef (world s)) as [[imgs err'] w]
      eqn:Hans.
    assert (Ha : answered client srcRef imgs err') by (by exists (world s), w).
    simpl in *. injection Hr as -> ->. subst s0 t0.
    exists imgs. destruct err' as [e|].
    + apply bind_inv in H as (b & sa & ta & tb & He & H & ->).
      apply ret_inv in H as (-> & -> & ->).
      injection He as _ <- <-. simpl. split; [by exists (Some e) | done].
    + apply ret_inv in H as (-> & -> & ->). split; [by exists None | done].
  - destruct (listTags_shape srcRef (tg :: rest) [] s) as (all & Hs & Hr & Hh).
    rewrite H in Hs, Hr, Hh. by exists all.
Qed.

Lemma uptoTag_flat (srcRef trgtRef : string) (tr1 tr2 : list Event)
    (imgs : list docker.Image) (tr3 rest : list Event) :
  uptoTag RefWithTags srcRef trgtRef tr1 tr2 imgs tr3 ++ rest =
  EvLog "INFO" "pulling source image '%s'" [srcRef] :: tr1 ++
  EvLog "INFO" "relevant tags" [] :: tr2 ++
  map (logImage RefWithTags) imgs ++
  EvLog "INFO" "setting tags for target image '%s'" [trgtRef] :: tr3 ++ rest.
Proof.
  unfold uptoTag, uptoList. simpl. f_equal.
  rewrite <- !app_assoc. simpl. f_equal. f_equal.
  by rewrite <- !app_assoc.
Qed.

Lemma Sync_shape (srcRef srcAuth trgtRef trgtAuth : string)
    (tags : list string) (verbose : bool) (s s' : store W)
    (res : option error) (tr : list Event) :
  Sync client SplitRef RefWithTags srcRef srcAuth trgtRef trgtAuth
    tags verbose s = (res, s', tr) →
  SyncShape (answered client) SplitRef RefWithTags srcRef srcAuth trgtRef
    trgtAuth tags verbose tr res.
Proof.
  intros H. unfold Sync in H.
  apply bind_inv in H as (u & s0 & t0 & t0' & H0 & H & ->).
  apply LogInfo_inv in H0 as (-> & ->).
  apply bind_inv in H as (err & s1 & t1 & t1' & Hpull & H & ->).
  apply pullPhase_run in Hpull as [Hpull Hh1].
  destruct err as [e|].
  { apply ret_inv in H as (-> & -> & ->). rewrite app_nil_r.
    by apply syncPullFailed. }
  apply bind_inv in H as (u1 & s1' & ta & ta' & H0 & H & ->).
  apply LogInfo_inv in H0 as (-> & ->).
  apply bind_inv in H as (srcImages & s2 & t2 & t2' & Hlist & H & ->).
  apply listPhase_run in Hlist as (all & Hlist & -> & Hh2).
  apply bind_inv in H as (u2 & s2' & tb & tb' & Hlog & H & ->).
  destruct (logImages_run (seq (length (heap s1)) (length all)) s2)
    as [Hf Ht].
  rewrite Hlog in Hf, Ht. unfold final, trace in Hf, Ht. simpl in Hf, Ht.
  subst s2' tb.
  assert (Hlogs :
    map (fun p => logImage RefWithTags (heap s2 !!! p))
      (seq (length (heap s1)) (length all)) =
    map (logImage RefWithTags) all).
  { transitivity (map (logImage RefWithTags)
                    (map (fun p => heap s2 !!! p)
                       (seq (length (heap s1)) (length all)))).
    - symmetry. apply map_map.
    - by rewrite Hh2, map_lookup_fresh. }
  rewrite Hlogs. clear Hlogs.
  apply bind_inv in H as (u3 & s2'' & tc & tc' & H0 & H & ->).
  apply LogInfo_inv in H0 as (-> & ->).
  apply bind_inv in H as (r & s3 & t3 & t3' & Htag & H & ->).
  assert (Hps : Forall (fun p => p < length (heap s2))
                  (seq (length (heap s1)) (length all))).
  { rewrite Hh2, length_app. apply seq_below. }
  destruct (tag_shape (seq (length (heap s1)) (length all)) trgtRef s2 Hps)
    as (Htsh & _).
  rewrite Htag in Htsh. unfold result, trace in Htsh. simpl in Htsh.
  rewrite Hh2, map_lookup_fresh in Htsh.
  destruct r as [ps [e|]]; simpl in *.
  { apply ret_inv in H as (-> & -> & ->).
    pose proof (syncTagFailed _ SplitRef RefWithTags srcRef srcAuth trgtRef
                  trgtAuth tags verbose _ _ _ _ _ Hpull Hlist Htsh)
      as Hshape.
    rewrite <- (app_nil_r (uptoTag _ _ _ _ _ _ _)), uptoTag_flat in Hshape.
    exact Hshape. }
  apply bind_inv in H as (u4 & s3' & td & td' & H0 & H & ->).
  apply LogInfo_inv in H0 as (-> & ->).
  apply bind_inv in H as (perr & s4 & t4 & t4' & Hpush & H & ->).
  assert (Ht4 : t4 = [EvPush trgtRef true trgtAuth verbose perr]).
  { unfold push in Hpush.
    pose proof (trace_call (docker.PushImage client trgtRef true trgtAuth
                              verbose)
                  (EvPush trgtRef true trgtAuth verbose) s3) as Ht.
    pose proof (result_call (docker.PushImage client trgtRef true trgtAuth
                               verbose)
                  (EvPush trgtRef true trgtAuth verbose) s3) as Hr.
    rewrite Hpush in Ht, Hr. unfold trace, result in Ht, Hr. simpl in *.
    by rewrite Ht, Hr. }
  subst t4.
  assert (Hpsh : optShape (EvPush trgtRef true trgtAuth verbose) errorPushing
                   ([EvPush trgtRef true trgtAuth verbose perr] ++ t4') res).
  { destruct perr as [e|]; apply ret_inv in H as (-> & -> & ->);
      constructor. }
  pose proof (syncPushed _ SplitRef RefWithTags srcRef srcAuth trgtRef
                trgtAuth tags verbose _ _ _ _ _ _ Hpull Hlist Htsh Hpsh)
    as Hshape.
  rewrite uptoTag_flat in Hshape. exact Hshape.
Qed.

End Phases.

(** ** Traces of the phases *)

Section ShapeFacts.

Variables srcRef srcAuth : string.
Variable verbose : bool.

Lemma pullsShape_ok (tags : list string) (tr : list Event) :
  pullsShape srcRef srcAuth verbose tags tr None → tr = map (okPull srcRef srcAuth verbose) tags.
Proof.
  intros H. remember None as r eqn:Hr.
  induction H as [|tg rest tr r H IH|]; [done| |done].
  simpl. by rewrite IH.
Qed.

Lemma pullsShape_fail (tags : list string) (tr : list Event) (e : error) :
  pullsShape srcRef srcAuth verbose tags tr (Some e) →
  ∃ done tg rest e0,
    tags = done ++ tg :: rest ∧
    e = errorPulling (refTagged srcRef tg) e0 ∧
    tr = map (okPull srcRef srcAuth verbose) done ++
         [EvPull (refTagged srcRef tg) false srcAuth verbose (Some e0)].
Proof.
  intros H. remember (Some e) as r eqn:Hr.
  induction H as [|tg rest tr r H IH|tg rest e0]; [done| |].
  - destruct (IH Hr) as (done & tg' & rest' & e0 & -> & -> & ->).
    by exists (tg :: done), tg', rest', e0.
  - injection Hr as <-. by exists [], tg, rest, e0.
Qed.

Lemma pullCalls_okPull (tags : list string) :
  pullCalls (map (okPull srcRef srcAuth verbose) tags) =
  map (fun tg => (refTagged srcRef tg, false, srcAuth, verbose)) tags.
Proof. induction tags as [|tg rest IH]; simpl; [done | by rewrite <- IH]. Qed.

Lemma pullsOk_okPull (tags : list string) :
  pullsOk (map (okPull srcRef srcAuth verbose) tags).
Proof. induction tags; constructor; done. Qed.

Lemma only_okPull (tags : list string) :
  only isPullEv (map (okPull srcRef srcAuth verbose) tags).
Proof. induction tags; constructor; done. Qed.

Lemma pullPhase_ok (tags : list string) (tr : list Event) :
  pullPhase srcRef srcAuth verbose tags tr None →
  only isPullEv tr ∧ pullsOk tr ∧
  pullCalls tr = expectedPulls srcRef srcAuth verbose tags.
Proof.
  destruct tags as [|tg rest]; simpl; intros H.
  - inversion H; subst. repeat split; by repeat constructor.
  - apply pullsShape_ok in H as ->.
    split; [apply only_okPull|]. split; [apply pullsOk_okPull|].
    apply pullCalls_okPull.
Qed.

Lemma pullPhase_fail (tags : list string) (tr : list Event) (e : error) :
  pullPhase srcRef srcAuth verbose tags tr (Some e) →
  ∃ pre ref allTags e0,
    tr = pre ++ [EvPull ref allTags srcAuth verbose (Some e0)] ∧
    e = errorPulling ref e0 ∧
    match tags with
    | [] => pre = [] ∧ ref = srcRef ∧ allTags = true
    | _ :: _ =>
        allTags = false ∧
        ∃ done tg rest,
          tags = done ++ tg :: rest ∧ ref = refTagged srcRef tg ∧
          pre = map (okPull srcRef srcAuth verbose) done
    end.
Proof.
  destruct tags as [|tg rest]; simpl; intros H.
  - inversion H; subst. by exists [], srcRef, true, e0.
  - apply pullsShape_fail in H as (done & tg' & rest' & e0 & Htags & -> & ->).
    exists (map (okPull srcRef srcAuth verbose) done), (refTagged srcRef tg'),
      false, e0.
    repeat split. by exists done, tg', rest'.
Qed.

End ShapeFacts.

(** Events of one phase say nothing to the readers of another. *)
Lemma flat_map_quiet {X : Type} (p : Event → bool) (g : Event → list X)
    (tr : list Event) :
  (∀ ev, p ev = true → g ev = []) → only p tr → flat_map g tr = [].
Proof.
  intros Hg. induction 1 as [|ev tr Hev _ IH]; simpl; [done|].
  by rewrite (Hg ev Hev), IH.
Qed.

Lemma Forall_quiet (p q : Event → bool) (tr : list Event) :
  (∀ ev, p ev = true → q ev = false) → only p tr →
  Forall (fun ev => q ev = false) tr.
Proof. intros Hq H. eapply Forall_impl; [exact H | exact Hq]. Qed.

Lemma append_assoc (a b c : string) : (a +:+ b) +:+ c = a +:+ b +:+ c.
Proof.
  induction a as [|x a IH]; [done|].
  change (String x ((a +:+ b) +:+ c) = String x (a +:+ b +:+ c)).
  by rewrite IH.
Qed.

Section ListFacts.

Variable answer : string → list docker.Image → option error → Prop.
Variable srcRef : string.

Lemma listStep_facts (ref : string) (wrap : error → error)
    (imgs : list docker.Image) (res : option error) :
  only isListEv (listStep ref wrap imgs res) ∧
  listCalls (listStep ref wrap imgs res) = [ref] ∧
  enumerated (listStep ref wrap imgs res) = imgs ∧
  loggedErrors (listStep ref wrap imgs res) =
    match res with Some e => [wrap e] | None => [] end.
Proof.
  unfold enumerated. destruct res; simpl; rewrite app_nil_r;
    repeat split; by repeat constructor.
Qed.

Lemma listsShape_facts (tags : list string) (tr : list Event)
    (all : list docker.Image) :
  listsShape answer srcRef tags tr all →
  only isListEv tr ∧
  listCalls tr = map (refTagged srcRef) tags ∧
  enumerated tr = all ∧
  (∀ tg rest, loggedErrors tr = listErrors (tg :: rest) tr) ∧
  Forall (answerEv answer) tr.
Proof.
  induction 1 as [|tg rest imgs res tr all Ha H (IH1 & IH2 & IH3 & IH4 & IH5)].
  - repeat split; by try constructor.
  - destruct (listStep_facts (refTagged srcRef tg)
                (errorListing (refTagged srcRef tg)) imgs res)
      as (H1 & H2 & H3 & H4).
    unfold only, listCalls, enumerated, loggedErrors, listErrors in *.
    rewrite !flat_map_app, Forall_app, H2, H3, H4, IH2, IH3.
    split; [done|]. split; [done|]. split; [done|]. split.
    + intros tg' rest'. rewrite (IH4 tg' rest'). f_equal.
      destruct res; simpl; done.
    + apply Forall_app. split; [|done].
      destruct res; simpl; by repeat constructor.
Qed.

Lemma listPhase_facts (tags : list string) (tr : list Event)
    (all : list docker.Image) :
  listPhase answer srcRef tags tr all →
  only isListEv tr ∧
  listCalls tr = expectedLists srcRef tags ∧
  enumerated tr = all ∧
  loggedErrors tr = listErrors tags tr ∧
  Forall (answerEv answer) tr.
Proof.
  destruct tags as [|tg rest]; simpl.
  - intros (res & Ha & ->).
    destruct (listStep_facts srcRef (errorListingAll srcRef) all res)
      as (H1 & H2 & H3 & H4).
    repeat split; try done.
    + rewrite H4. destruct res; simpl; done.
    + destruct res; simpl; by repeat constructor.
  - intros H. apply listsShape_facts in H as (H1 & H2 & H3 & H4 & H5).
    repeat split; done || apply H4.
Qed.

End ListFacts.

Lemma enumeratedOk_answered {W : Type} (client : docker.Client W)
    (tr : list Event) :
  listFailsEmpty client → Forall (answerEv (answered client)) tr →
  enumeratedOk tr = enumerated tr.
Proof.
  intros Hc. induction 1 as [|ev tr Hev _ IH]; [done|].
  unfold enumeratedOk, enumerated in *. simpl. rewrite IH. f_equal.
  destruct ev as [| |ref imgs [e|]| | | | | | | |]; simpl; try done.
  destruct Hev as (w & w' & Hev). symmetry. by eapply Hc.
Qed.

Section TagFacts.

Variables targetRepo targetPath : string.

Lemma tagTagsShape_facts (id : string) (tags : list string)
    (tr : list Event) (r : option error) :
  tagTagsShape id (targetRepo +:+ "/" +:+ targetPath) tags tr r →
  only isTagEv tr ∧
  tagCalls tr `prefix_of`
    map (fun tg => (id, targetRepo +:+ "/" +:+ targetPath +:+ ":" +:+ tg))
        tags ∧
  match r with
  | None =>
      tagCalls tr =
        map (fun tg => (id, targetRepo +:+ "/" +:+ targetPath +:+ ":" +:+ tg))
            tags ∧
      tagsOk tr
  | Some e =>
      ∃ pre id' ref', tr = pre ++ [EvTag id' ref' (Some e)] ∧ tagsOk pre
  end.
Proof.
  induction 1 as [|tg rest tr r H (IH1 & IH2 & IH3)|tg rest e]; simpl.
  - repeat split; try constructor. apply prefix_nil.
  - rewrite !append_assoc. simpl.
    split; [by constructor|]. split; [by apply prefix_cons|].
    destruct r as [e|].
    + destruct IH3 as (pre & id' & ref' & -> & Hpre).
      exists (EvTag id (targetRepo +:+ "/" +:+ targetPath +:+ ":" +:+ tg) None
              :: pre), id', ref'.
      split; [done | by constructor].
    + destruct IH3 as [-> Hok]. split; [done | by constructor].
  - rewrite !append_assoc. simpl.
    split; [by repeat constructor|]. split.
    + apply prefix_cons, prefix_nil.
    + exists [], id, (targetRepo +:+ "/" +:+ targetPath +:+ ":" +:+ tg).
      split; [done | constructor].
Qed.

Lemma tagShape_facts (imgs : list docker.Image) (tr : list Event)
    (r : option error) :
  tagShape targetRepo targetPath imgs tr r →
  only isTagEv tr ∧
  tagCalls tr `prefix_of` tagsForAll targetRepo targetPath imgs ∧
  match r with
  | None => tagCalls tr = tagsForAll targetRepo targetPath imgs ∧ tagsOk tr
  | Some e =>
      ∃ pre id' ref', tr = pre ++ [EvTag id' ref' (Some e)] ∧ tagsOk pre
  end.
Proof.
  induction 1 as [|img rest tr1 tr r H1 H (IH1 & IH2 & IH3)|img rest tr1 e H1].
  - repeat split; try constructor. apply prefix_nil.
  - apply tagTagsShape_facts in H1 as (Ho & _ & Hc & Hk).
    unfold only, tagCalls, tagsForAll, tagsOk in *. simpl.
    split; [by apply Forall_app|].
    split; [rewrite flat_map_app, Hc; by apply prefix_app|].
    destruct r as [e|].
    + destruct IH3 as (pre & id' & ref' & -> & Hpre).
      exists (tr1 ++ pre), id', ref'.
      split; [by rewrite app_assoc | by apply Forall_app].
    + destruct IH3 as [IH3 Hok].
      split; [by rewrite flat_map_app, Hc, IH3 | by apply Forall_app].
  - apply tagTagsShape_facts in H1 as (Ho & Hp & Hk).
    split; [done|]. split; [|done].
    unfold tagsForAll. simpl. by apply prefix_app_r.
Qed.

End TagFacts.

(** ** Reading a run of [Sync] *)

Lemma flat_map_logImage {X : Type} (R : docker.Image → string)
    (g : Event → list X) (imgs : list docker.Image) :
  (∀ img, g (logImage R img) = []) →
  flat_map g (map (logImage R) imgs) = [].
Proof.
  intros Hg. induction imgs as [|img imgs IH]; simpl; [done|].
  by rewrite Hg, IH.
Qed.

Lemma Forall_logImage (R : docker.Image → string) (P : Event → Prop)
    (imgs : list docker.Image) :
  (∀ img, P (logImage R img)) → Forall P (map (logImage R) imgs).
Proof. intros HP. induction imgs; constructor; done. Qed.

Ltac quiet :=
  repeat match goal with
    | H : only ?p ?tr |- context [flat_map ?g ?tr] =>
        rewrite (flat_map_quiet p g tr) by first [exact H | by intros []]
    | |- context [flat_map ?g (map (logImage ?R) ?imgs)] =>
        rewrite (flat_map_logImage R g imgs) by done
    end.

Ltac quiet_all :=
  repeat match goal with
    | H : only ?p ?tr |- Forall (fun ev => ?q ev = false) ?tr =>
        by apply (Forall_quiet p q tr); [intros [] | exact H]
    | H : only ?p ?tr |- Forall (answerEv _) ?tr =>
        by eapply Forall_impl; [exact H | intros []]
    | |- Forall _ (map (logImage _) _) => by apply Forall_logImage
    | |- Forall _ (_ ++ _) => apply Forall_app; split
    | |- Forall _ (_ :: _) => apply Forall_cons; split
    | |- Forall _ [] => constructor
    end.

Section SyncFacts.

Variable answer : string → list docker.Image → option error → Prop.
Variable RefWithTags : docker.Image → string.
Variables srcRef trgtRef : string.

Lemma uptoTag_reads (tr1 tr2 : list Event) (imgs : list docker.Image)
    (tr3 tl : list Event) :
  only isPullEv tr1 → only isListEv tr2 → only isTagEv tr3 →
  let tr := uptoTag RefWithTags srcRef trgtRef tr1 tr2 imgs tr3 ++ tl in
  pullCalls tr = pullCalls tr1 ++ pullCalls tl ∧
  listCalls tr = listCalls tr2 ++ listCalls tl ∧
  tagCalls tr = tagCalls tr3 ++ tagCalls tl ∧
  pushCalls tr = pushCalls tl ∧
  enumerated tr = enumerated tr2 ++ enumerated tl ∧
  enumeratedOk tr = enumeratedOk tr2 ++ enumeratedOk tl ∧
  loggedErrors tr = loggedErrors tr2 ++ loggedErrors tl ∧
  (∀ tags, listErrors tags tr = listErrors tags tr2 ++ listErrors tags tl) ∧
  steps tr = StSync :: steps tl ∧
  marks tr = marks tl.
Proof.
  intros H1 H2 H3 tr. subst tr. rewrite uptoTag_flat.
  unfold pullCalls, listCalls, tagCalls, pushCalls, enumerated, enumeratedOk,
    loggedErrors, listErrors, steps, marks.
  repeat split; intros;
    repeat (rewrite ?flat_map_app; cbn [flat_map]); quiet;
    by rewrite ?app_nil_r.
Qed.

Lemma uptoTag_oks (tr1 tr2 : list Event) (imgs : list docker.Image)
    (tr3 tl : list Event) :
  only isPullEv tr1 → only isListEv tr2 → only isTagEv tr3 →
  let tr := uptoTag RefWithTags srcRef trgtRef tr1 tr2 imgs tr3 ++ tl in
  (pullsOk tr1 → pullsOk tl → pullsOk tr) ∧
  (tagsOk tr3 → tagsOk tl → tagsOk tr) ∧
  (pushesOk tl → pushesOk tr) ∧
  (Forall (answerEv answer) tr2 → Forall (answerEv answer) tl →
   Forall (answerEv answer) tr).
Proof.
  intros H1 H2 H3 tr. subst tr. rewrite uptoTag_flat.
  unfold pullsOk, tagsOk, pushesOk.
  repeat split; intros; quiet_all; done.
Qed.

Lemma uptoTag_snoc (tr1 tr2 : list Event) (imgs : list docker.Image)
    (pre : list Event) (ev : Event) :
  uptoTag RefWithTags srcRef trgtRef tr1 tr2 imgs (pre ++ [ev]) =
  uptoTag RefWithTags srcRef trgtRef tr1 tr2 imgs pre ++ [ev].
Proof. unfold uptoTag. by rewrite <- app_assoc. Qed.

End SyncFacts.

Section SyncCases.

Context {W : Type}.
Variable client : docker.Client W.
Variable SplitRef : string → string * string * string.
Variable RefWithTags : docker.Image → string.
Variables srcRef srcAuth trgtRef trgtAuth : string.
Variable tags : list string.
Variable verbose : bool.

(** A run of [Sync] either stops at a pull that failed, or goes through
    the three first phases and then stops at a tag call that failed or
    ends with the push. *)
Lemma Sync_cases (s s' : store W) (res : option error) (tr : list Event) :
  Sync client SplitRef RefWithTags srcRef srcAuth trgtRef trgtAuth tags
    verbose s = (res, s', tr) →
  (∃ pre ref allTags e0,
     tr = EvLog "INFO" "pulling source image '%s'" [srcRef] ::
          pre ++ [EvPull ref allTags srcAuth verbose (Some e0)] ∧
     res = Some (errorPulling ref e0) ∧
     match tags with
     | [] => pre = [] ∧ ref = srcRef ∧ allTags = true
     | _ :: _ =>
         allTags = false ∧
         ∃ done tg rest,
           tags = done ++ tg :: rest ∧ ref = refTagged srcRef tg ∧
           pre = map (okPull srcRef srcAuth verbose) done
     end) ∨
  (∃ tr1 tr2 imgs tr3 tl,
     tr = uptoTag RefWithTags srcRef trgtRef tr1 tr2 imgs tr3 ++ tl ∧
     (only isPullEv tr1 ∧ pullsOk tr1 ∧
      pullCalls tr1 = expectedPulls srcRef srcAuth verbose tags) ∧
     (only isListEv tr2 ∧ listCalls tr2 = expectedLists srcRef tags ∧
      enumerated tr2 = imgs ∧ loggedErrors tr2 = listErrors tags tr2 ∧
      Forall (answerEv (answered client)) tr2) ∧
     (only isTagEv tr3 ∧
      tagCalls tr3 `prefix_of`
        tagsForAll (SplitRef trgtRef).1.1 (SplitRef trgtRef).1.2 imgs) ∧
     ((∃ e pre id ref,
         tl = [] ∧ tr3 = pre ++ [EvTag id ref (Some e)] ∧ tagsOk pre ∧
         res = Some (errorTagging e)) ∨
      (tagCalls tr3 =
         tagsForAll (SplitRef trgtRef).1.1 (SplitRef trgtRef).1.2 imgs ∧
       tagsOk tr3 ∧
       ∃ pr,
         tl = [EvLog "INFO" "pushing target image '%s'" [trgtRef];
               EvPush trgtRef true trgtAuth verbose pr] ∧
         res = option_map errorPushing pr))).
Proof.
  intros H. apply Sync_shape in H.
  destruct H as [tr1 e Hp|tr1 tr2 imgs tr3 e Hp Hl Ht
                |tr1 tr2 imgs tr3 tr4 r Hp Hl Ht Hpush].
  - left. apply pullPhase_fail in Hp as (pre & ref & allTags & e0 & -> & -> & Hc).
    by exists pre, ref, allTags, e0.
  - right. exists tr1, tr2, imgs, tr3, [].
    apply pullPhase_ok in Hp. apply listPhase_facts in Hl.
    apply tagShape_facts in Ht as (Ho & Hpre & pre & id & ref & -> & Hok).
    rewrite app_nil_r. repeat split; try tauto.
    left. by exists e, pre, id, ref.
  - right. exists tr1, tr2, imgs, tr3,
      (EvLog "INFO" "pushing target image '%s'" [trgtRef] :: tr4).
    apply pullPhase_ok in Hp. apply listPhase_facts in Hl.
    apply tagShape_facts in Ht as (Ho & Hpre & Hc & Hok).
    repeat split; try tauto.
    right. repeat split; try done.
    inversion Hpush; subst; by eexists.
Qed.

Lemma failed_pull_not_ok (pre : list Event) (ref : string) (allTags : bool)
    (auth : string) (v : bool) (e : error) (tl : list Event) :
  ¬ pullsOk (pre ++ EvPull ref allTags auth v (Some e) :: tl).
Proof.
  unfold pullsOk. rewrite Forall_app, Forall_cons. by intros (_ & ? & _).
Qed.

Lemma failed_tag_not_ok (pre : list Event) (id ref : string) (e : error)
    (tl : list Event) :
  ¬ tagsOk (pre ++ EvTag id ref (Some e) :: tl).
Proof.
  unfold tagsOk. rewrite Forall_app, Forall_cons. by intros (_ & ? & _).
Qed.

End SyncCases.

Lemma Forall_Exists_false (q : Event → bool) (tr : list Event) :
  Forall (fun ev => q ev = false) tr → Exists (fun ev => q ev = true) tr →
  False.
Proof.
  intros Hall Hex. apply Exists_exists in Hex as (ev & Hin & Hq).
  rewrite Forall_forall in Hall. specialize (Hall ev Hin). congruence.
Qed.

(** ** The pulls and the list calls of [Sync] *)

(** C1, as amended.  With an empty tag list [Sync] issues exactly one
    pull, on [srcRef] with [allTags = true]; and whenever every pull of
    the run succeeds, the pulls are that single all-tags pull (empty
    list) or one pull of [srcRef:t] with [allTags = false] per tag, in
    the order of the list, and the list calls are one call on [srcRef]
    (empty list) or one call on [srcRef:t] per tag, in the same order. *)
Theorem Sync_pull_and_list_calls {W : Type} (client : docker.Client W)
    (SplitRef : string → string * string * string)
    (RefWithTags : docker.Image → string)
    (srcRef srcAuth trgtRef trgtAuth : string) (tags : list string)
    (verbose : bool) (s : store W) :
  let tr := trace (Sync client SplitRef RefWithTags srcRef srcAuth trgtRef
                     trgtAuth tags verbose s) in
  (tags = [] → pullCalls tr = [(srcRef, true, srcAuth, verbose)]) ∧
  (pullsOk tr →
   pullCalls tr = expectedPulls srcRef srcAuth verbose tags ∧
   listCalls tr = expectedLists srcRef tags).
Proof.
  destruct (Sync client SplitRef RefWithTags srcRef srcAuth trgtRef trgtAuth
              tags verbose s) as [[res s'] tr] eqn:Hrun.
  unfold trace. simpl.
  apply Sync_cases in Hrun
    as [(pre & ref & allTags & e0 & -> & -> & Hc)
       |(tr1 & tr2 & imgs & tr3 & tl & -> & (Ho1 & Hk1 & Hc1)
           & (Ho2 & Hc2 & _) & (Ho3 & _) & Hend)].
  - split.
    + intros ->. by destruct Hc as (-> & -> & ->).
    + intros Hok. exfalso.
      exact (failed_pull_not_ok
               (EvLog "INFO" "pulling source image '%s'" [srcRef] :: pre)
               ref allTags srcAuth verbose e0 [] Hok).
  - destruct (uptoTag_reads RefWithTags srcRef trgtRef tr1 tr2 imgs tr3 tl
                Ho1 Ho2 Ho3) as (Hpc & Hlc & _).
    assert (Htl : pullCalls tl = [] ∧ listCalls tl = []).
    { by destruct Hend as [(e & pre & id & ref & -> & _)|(_ & _ & pr & -> & _)]. }
    destruct Htl as [Htl1 Htl2].
    rewrite Hpc, Hlc, Hc1, Hc2, Htl1, Htl2, !app_nil_r.
    split; [by intros -> | done].
Qed.

(** The two tags of the example scenario: two pulls, two list calls. *)
Lemma Sync_pull_and_list_calls_witness :
  let tr := trace (Sync (Demo.client [] [] [] [] Demo.table) Demo.SplitRef
                     Demo.RefWithTags "docker.io/library/alpine" ""
                     "example.com/mirror/alpine" "" ["3.18"; "3.19"] false
                     Demo.start) in
  pullsOk tr ∧
  pullCalls tr = [("docker.io/library/alpine:3.18", false, "", false);
                  ("docker.io/library/alpine:3.19", false, "", false)] ∧
  listCalls tr = ["docker.io/library/alpine:3.18";
                  "docker.io/library/alpine:3.19"].
Proof.
  assert (Hok : pullsOk
    (trace (Sync (Demo.client [] [] [] [] Demo.table) Demo.SplitRef
              Demo.RefWithTags "docker.io/library/alpine" ""
              "example.com/mirror/alpine" "" ["3.18"; "3.19"] false
              Demo.start))).
  { vm_compute. repeat constructor. }
  split; [exact Hok|].
  exact (proj2 (Sync_pull_and_list_calls (Demo.client [] [] [] [] Demo.table)
                  Demo.SplitRef Demo.RefWithTags "docker.io/library/alpine" ""
                  "example.com/mirror/alpine" "" ["3.18"; "3.19"] false
                  Demo.start) Hok).
Defined.

(** C1 as it is stated fails: with an empty tag list and a pull that
    fails, one pull is issued and no list call at all. *)
Lemma Sync_failed_pull_lists_nothing :
  let tr := trace (Sync (Demo.client ["src"] [] [] [] []) Demo.SplitRef
                     Demo.RefWithTags "src" "" "reg/app" "" [] false
                     Demo.start) in
  pullCalls tr = [("src", true, "", false)] ∧
  listCalls tr = [] ∧
  length (listCalls tr) ≠ 1.
Proof. vm_compute. repeat split. discriminate. Qed.

(** ** A pull that fails *)

(** C2.  If a pull of the run fails, it is the last thing [Sync] does:
    the trace is the first log line, the pulls that succeeded and the
    pull that failed; [Sync] returns the error of that pull; no list,
    tag or push call is made.  With an empty tag list the failed pull is
    the all-tags pull of [srcRef]; otherwise it is the pull of
    [srcRef:t] for a tag [t] of the list, the pulls before it are those
    of the tags before [t], and no tag after [t] is pulled. *)
Theorem Sync_pull_failure_returns {W : Type} (client : docker.Client W)
    (SplitRef : string → string * string * string)
    (RefWithTags : docker.Image → string)
    (srcRef srcAuth trgtRef trgtAuth : string) (tags : list string)
    (verbose : bool) (s : store W) :
  let r := Sync client SplitRef RefWithTags srcRef srcAuth trgtRef trgtAuth
             tags verbose s in
  Exists (fun ev => pullFailed ev = true) (trace r) →
  ∃ pre ref allTags e,
    trace r = EvLog "INFO" "pulling source image '%s'" [srcRef] ::
              pre ++ [EvPull ref allTags srcAuth verbose (Some e)] ∧
    result r = Some (errorPulling ref e) ∧
    listCalls (trace r) = [] ∧ tagCalls (trace r) = [] ∧
    pushCalls (trace r) = [] ∧
    match tags with
    | [] => pre = [] ∧ ref = srcRef ∧ allTags = true
    | _ :: _ =>
        allTags = false ∧
        ∃ done tg rest,
          tags = done ++ tg :: rest ∧ ref = refTagged srcRef tg ∧
          pre = map (okPull srcRef srcAuth verbose) done
    end.
Proof.
  destruct (Sync client SplitRef RefWithTags srcRef srcAuth trgtRef trgtAuth
              tags verbose s) as [[res s'] tr] eqn:Hrun.
  unfold trace, result. simpl. intros Hex.
  apply Sync_cases in Hrun
    as [(pre & ref & allTags & e0 & -> & -> & Hc)
       |(tr1 & tr2 & imgs & tr3 & tl & -> & (Ho1 & Hk1 & Hc1)
           & (Ho2 & _) & (Ho3 & _) & Hend)].
  - exists pre, ref, allTags, e0.
    assert (Hpre : only isPullEv pre).
    { destruct tags; [destruct Hc as (-> & _); constructor|].
      destruct Hc as (_ & done & tg & rest & _ & _ & ->). apply only_okPull. }
    unfold listCalls, tagCalls, pushCalls.
    repeat split; try done;
      cbn [flat_map]; rewrite flat_map_app; quiet; done.
  - exfalso.
    destruct (uptoTag_oks (fun _ _ _ => True) RefWithTags srcRef trgtRef
                tr1 tr2 imgs tr3 tl Ho1 Ho2 Ho3) as (Hp & _).
    eapply Forall_Exists_false; [|exact Hex]. apply Hp; [done|].
    destruct Hend as [(e & pre & id & ref & -> & _)|(_ & _ & pr & -> & _)];
      by repeat constructor.
Qed.

(** The pull of the second of three tags fails: the third is not pulled. *)
Lemma Sync_pull_failure_returns_witness :
  let r := Sync (Demo.client ["docker.io/library/alpine:3.19"] [] [] []
                   Demo.table) Demo.SplitRef Demo.RefWithTags
             "docker.io/library/alpine" "" "example.com/mirror/alpine" ""
             ["3.18"; "3.19"; "3.20"] false Demo.start in
  Exists (fun ev => pullFailed ev = true) (trace r) ∧
  ∃ pre ref allTags e,
    trace r = EvLog "INFO" "pulling source image '%s'"
                ["docker.io/library/alpine"] ::
              pre ++ [EvPull ref allTags "" false (Some e)] ∧
    result r = Some (errorPulling ref e) ∧
    listCalls (trace r) = [] ∧ tagCalls (trace r) = [] ∧
    pushCalls (trace r) = [] ∧
    allTags = false ∧
    ∃ done tg rest,
      ["3.18"; "3.19"; "3.20"] = done ++ tg :: rest ∧
      ref = refTagged "docker.io/library/alpine" tg ∧
      pre = map (okPull "docker.io/library/alpine" "" false) done.
Proof.
  assert (Hex : Exists (fun ev => pullFailed ev = true)
    (trace (Sync (Demo.client ["docker.io/library/alpine:3.19"] [] [] []
                    Demo.table) Demo.SplitRef Demo.RefWithTags
              "docker.io/library/alpine" "" "example.com/mirror/alpine" ""
              ["3.18"; "3.19"; "3.20"] false Demo.start))).
  { vm_compute. do 2 apply Exists_cons_tl. by apply Exists_cons_hd. }
  split; [exact Hex|].
  exact (Sync_pull_failure_returns
           (Demo.client ["docker.io/library/alpine:3.19"] [] [] [] Demo.table)
           Demo.SplitRef Demo.RefWithTags "docker.io/library/alpine" ""
           "example.com/mirror/alpine" "" ["3.18"; "3.19"; "3.20"] false
           Demo.start Hex).
Defined.

(** ** The tag step *)

(** C3.  With [(targetRepo, targetPath)] the two first results of
    splitting [trgtRef], the tag calls of a run are, in order, a tag of
    [img.ID] as [targetRepo/targetPath:tag] for every image the list
    calls returned and every tag on it: always a prefix of that list, and
    the whole of it when no tag call fails.  If a tag call fails it is
    the last event of the run, [Sync] returns its error, and no push is
    made. *)
Theorem Sync_tags_enumerated_images {W : Type} (client : docker.Client W)
    (SplitRef : string → string * string * string)
    (RefWithTags : docker.Image → string)
    (srcRef srcAuth trgtRef trgtAuth : string) (tags : list string)
    (verbose : bool) (s : store W) :
  let r := Sync client SplitRef RefWithTags srcRef srcAuth trgtRef trgtAuth
             tags verbose s in
  let targetRepo := (SplitRef trgtRef).1.1 in
  let targetPath := (SplitRef trgtRef).1.2 in
  tagCalls (trace r) `prefix_of`
    tagsForAll targetRepo targetPath (enumerated (trace r)) ∧
  (tagsOk (trace r) →
   tagCalls (trace r) =
     tagsForAll targetRepo targetPath (enumerated (trace r))) ∧
  (Exists (fun ev => tagFailed ev = true) (trace r) →
   ∃ pre id ref e,
     trace r = pre ++ [EvTag id ref (Some e)] ∧
     result r = Some (errorTagging e) ∧
     pushCalls (trace r) = []).
Proof.
  destruct (Sync client SplitRef RefWithTags srcRef srcAuth trgtRef trgtAuth
              tags verbose s) as [[res s'] tr] eqn:Hrun.
  unfold trace, result. simpl.
  apply Sync_cases in Hrun
    as [(pre & ref & allTags & e0 & -> & -> & Hc)
       |(tr1 & tr2 & imgs & tr3 & tl & -> & (Ho1 & Hk1 & Hc1)
           & (Ho2 & _ & He2 & _) & (Ho3 & Hp3) & Hend)].
  - assert (Hpre : only isPullEv
              (pre ++ [EvPull ref allTags srcAuth verbose (Some e0)])).
    { apply Forall_app. split; [|by repeat constructor].
      destruct tags; [destruct Hc as (-> & _); constructor|].
      destruct Hc as (_ & done & tg & rest & _ & _ & ->). apply only_okPull. }
    unfold tagCalls, enumerated. cbn [flat_map]. quiet. simpl.
    split; [done|]. split; [done|]. intros Hex. exfalso.
    eapply Forall_Exists_false; [|exact Hex]. quiet_all. done.
  - destruct (uptoTag_reads RefWithTags srcRef trgtRef tr1 tr2 imgs tr3 tl
                Ho1 Ho2 Ho3) as (_ & _ & Htc & Hpc & Hen & _).
    destruct (uptoTag_oks (fun _ _ _ => True) RefWithTags srcRef trgtRef
                tr1 tr2 imgs tr3 tl Ho1 Ho2 Ho3) as (_ & Htk & _).
    assert (Htl : tagCalls tl = [] ∧ enumerated tl = []).
    { by destruct Hend as [(e & pre & id & ref & -> & _)|(_ & _ & pr & -> & _)]. }
    destruct Htl as [Htl1 Htl2].
    rewrite Htc, Hpc, Hen, He2, Htl1, Htl2, !app_nil_r.
    destruct Hend as [(e & pre & id & ref & -> & -> & Hpre & ->)
                     |(Hall & Hok & pr & -> & ->)].
    + split; [done|]. rewrite app_nil_r, uptoTag_snoc. split.
      * intros Hbad. by apply failed_tag_not_ok in Hbad.
      * intros _. by exists (uptoTag RefWithTags srcRef trgtRef tr1 tr2 imgs pre),
          id, ref, e.
    + split; [done|]. split; [done|]. intros Hex. exfalso.
      eapply Forall_Exists_false; [|exact Hex].
      apply Htk; [done | by repeat constructor].
Qed.

(** A run that tags three tags of two images, and a run whose second tag
    call fails. *)
Lemma Sync_tags_enumerated_images_witness :
  (let r := Sync (Demo.client [] [] [] [] Demo.table) Demo.SplitRef
              Demo.RefWithTags "docker.io/library/alpine" ""
              "example.com/mirror/alpine" "" [] false Demo.start in
   tagsOk (trace r) ∧
   tagCalls (trace r) =
     [("sha256:a1", "example.com/mirror/alpine:3.18");
      ("sha256:a2", "example.com/mirror/alpine:3.19");
      ("sha256:a2", "example.com/mirror/alpine:latest")]) ∧
  (let r := Sync (Demo.client [] [] ["example.com/mirror/alpine:3.19"] []
                    Demo.table) Demo.SplitRef
              Demo.RefWithTags "docker.io/library/alpine" ""
              "example.com/mirror/alpine" "" [] false Demo.start in
   Exists (fun ev => tagFailed ev = true) (trace r) ∧
   ∃ pre id ref e,
     trace r = pre ++ [EvTag id ref (Some e)] ∧
     result r = Some (errorTagging e) ∧
     pushCalls (trace r) = []).
Proof.
  split.
  - assert (Hok : tagsOk
      (trace (Sync (Demo.client [] [] [] [] Demo.table) Demo.SplitRef
                Demo.RefWithTags "docker.io/library/alpine" ""
                "example.com/mirror/alpine" "" [] false Demo.start))).
    { vm_compute. repeat constructor. }
    split; [exact Hok|].
    exact (proj1 (proj2 (Sync_tags_enumerated_images
                           (Demo.client [] [] [] [] Demo.table) Demo.SplitRef
                           Demo.RefWithTags "docker.io/library/alpine" ""
                           "example.com/mirror/alpine" "" [] false
                           Demo.start)) Hok).
  - assert (Hex : Exists (fun ev => tagFailed ev = true)
      (trace (Sync (Demo.client [] [] ["example.com/mirror/alpine:3.19"] []
                      Demo.table) Demo.SplitRef
                Demo.RefWithTags "docker.io/library/alpine" ""
                "example.com/mirror/alpine" "" [] false Demo.start))).
    { vm_compute. do 8 apply Exists_cons_tl. by apply Exists_cons_hd. }
    split; [exact Hex|].
    exact (proj2 (proj2 (Sync_tags_enumerated_images
                           (Demo.client [] []
                              ["example.com/mirror/alpine:3.19"] []
                              Demo.table) Demo.SplitRef
                           Demo.RefWithTags "docker.io/library/alpine" ""
                           "example.com/mirror/alpine" "" [] false
                           Demo.start)) Hex).
Defined.

(** ** List calls that fail *)



(** ** The push *)

(** C7.  Every push of a run is the push of [trgtRef] with
    [allTags = true], whatever the tag list.  When the pulls succeed and
    the list calls return no image, no tag call is made, the push is
    still made, and [Sync] returns [nil] if the push succeeds. *)
Theorem Sync_pushes_all_tags {W : Type} (client : docker.Client W)
    (SplitRef : string → string * string * string)
    (RefWithTags : docker.Image → string)
    (srcRef srcAuth trgtRef trgtAuth : string) (tags : list string)
    (verbose : bool) (s : store W) :
  let r := Sync client SplitRef RefWithTags srcRef srcAuth trgtRef trgtAuth
             tags verbose s in
  (∀ c, c ∈ pushCalls (trace r) → c = (trgtRef, true, trgtAuth, verbose)) ∧
  (pullsOk (trace r) → enumerated (trace r) = [] →
   tagCalls (trace r) = [] ∧
   pushCalls (trace r) = [(trgtRef, true, trgtAuth, verbose)] ∧
   (pushesOk (trace r) → result r = None)).
Proof.
  destruct (Sync client SplitRef RefWithTags srcRef srcAuth trgtRef trgtAuth
              tags verbose s) as [[res s'] tr] eqn:Hrun.
  unfold trace, result. simpl.
  apply Sync_cases in Hrun
    as [(pre & ref & allTags & e0 & -> & -> & Hc)
       |(tr1 & tr2 & imgs & tr3 & tl & -> & (Ho1 & Hk1 & Hc1)
           & (Ho2 & Hc2 & He2 & Hl2 & Ha2) & (Ho3 & Hp3) & Hend)].
  - assert (Hpre : only isPullEv
              (pre ++ [EvPull ref allTags srcAuth verbose (Some e0)])).
    { apply Forall_app. split; [|by repeat constructor].
      destruct tags; [destruct Hc as (-> & _); constructor|].
      destruct Hc as (_ & done & tg & rest & _ & _ & ->). apply only_okPull. }
    split.
    + unfold pushCalls. cbn [flat_map]. quiet. simpl. by intros c ?%elem_of_nil.
    + intros Hok. exfalso.
      exact (failed_pull_not_ok
               (EvLog "INFO" "pulling source image '%s'" [srcRef] :: pre)
               ref allTags srcAuth verbose e0 [] Hok).
  - destruct (uptoTag_reads RefWithTags srcRef trgtRef tr1 tr2 imgs tr3 tl
                Ho1 Ho2 Ho3) as (_ & _ & Htc & Hpc & Hen & _).
    rewrite Htc, Hpc, Hen, He2.
    destruct Hend as [(e & pre & id & ref & -> & -> & Hpre & ->)
                     |(Hall & Hok & pr & -> & ->)].
    + split; [by intros c ?%elem_of_nil|].
      intros _ Himgs. exfalso.
      change (enumerated []) with (@nil docker.Image) in Himgs.
      rewrite app_nil_r in Himgs. rewrite Himgs in Hp3.
      apply prefix_nil_inv in Hp3. unfold tagCalls in Hp3.
      rewrite flat_map_app in Hp3. by apply app_eq_nil in Hp3 as [_ ?].
    + change (pushCalls _) with [(trgtRef, true, trgtAuth, verbose)].
      change (tagCalls [_; _]) with (@nil (string * string)).
      change (enumerated [_; _]) with (@nil docker.Image).
      rewrite !app_nil_r. split; [by intros c ->%list_elem_of_singleton|].
      intros _ ->. rewrite Hall. split; [done|]. split; [done|].
      intros Hpush. destruct pr as [e|]; [|done]. exfalso.
      unfold pushesOk in Hpush. rewrite Forall_app in Hpush.
      destruct Hpush as [_ Hpush].
      apply Forall_cons in Hpush as [_ Hpush].
      by apply Forall_cons in Hpush as [Hpush _].
Qed.

(** A source with no image at all: one pull, one list call that returns
    nothing, no tag call, the push with all tags, and success. *)
Lemma Sync_pushes_all_tags_witness :
  let r := Sync (Demo.client [] [] [] [] []) Demo.SplitRef Demo.RefWithTags
             "docker.io/library/alpine" "" "example.com/mirror/alpine" ""
             ["3.18"] true Demo.start in
  (pullsOk (trace r) ∧ enumerated (trace r) = [] ∧ pushesOk (trace r)) ∧
  tagCalls (trace r) = [] ∧
  pushCalls (trace r) = [("example.com/mirror/alpine", true, "", true)] ∧
  result r = None.
Proof.
  assert (Hpull : pullsOk
    (trace (Sync (Demo.client [] [] [] [] []) Demo.SplitRef Demo.RefWithTags
              "docker.io/library/alpine" "" "example.com/mirror/alpine" ""
              ["3.18"] true Demo.start)))
    by (vm_compute; repeat constructor).
  assert (Hnone : enumerated
    (trace (Sync (Demo.client [] [] [] [] []) Demo.SplitRef Demo.RefWithTags
              "docker.io/library/alpine" "" "example.com/mirror/alpine" ""
              ["3.18"] true Demo.start)) = [])
    by (by vm_compute).
  assert (Hpush : pushesOk
    (trace (Sync (Demo.client [] [] [] [] []) Demo.SplitRef Demo.RefWithTags
              "docker.io/library/alpine" "" "example.com/mirror/alpine" ""
              ["3.18"] true Demo.start)))
    by (vm_compute; repeat constructor).
  destruct (proj2 (Sync_pushes_all_tags (Demo.client [] [] [] [] [])
                     Demo.SplitRef Demo.RefWithTags
                     "docker.io/library/alpine" ""
                     "example.com/mirror/alpine" "" ["3.18"] true Demo.start)
              Hpull Hnone) as (H1 & H2 & H3).
  split; [done|]. split; [exact H1|]. split; [exact H2 | exact (H3 Hpush)].
Defined.

(** ** The images [tag] builds *)

Lemma lookup_map_Some {A B : Type} (f : A → B) (l : list A) (i : nat) (x : A) :
  l !! i = Some x → map f l !! i = Some (f x).
Proof.
  revert i. induction l as [|y l IH]; intros [|i]; simpl; try done.
  - by intros [= ->].
  - apply IH.
Qed.

(** C8.  [tag] writes no image it was given: every image of the heap is
    after the call what it was before.  When no tag call fails it returns
    one pointer per source image, in order; each is a fresh cell, above
    every cell of the heap before the call, and holds the source image's
    [ID] and [Tags] with the [Repo] and [Path] that [SplitRef] gives for
    the target reference. *)
Theorem tag_leaves_sources_unchanged {W : Type} (client : docker.Client W)
    (SplitRef : string → string * string * string)
    (images : list ptr) (targetRef : string) (s : store W) :
  Forall (fun p => p < length (heap s)) images →
  let r := tag client SplitRef images targetRef s in
  let targetRepo := (SplitRef targetRef).1.1 in
  let targetPath := (SplitRef targetRef).1.2 in
  (∀ p img, heap s !! p = Some img → heap (final r) !! p = Some img) ∧
  ((result r).2 = None →
   length (result r).1 = length images ∧
   ∀ i p q,
     images !! i = Some p → (result r).1 !! i = Some q →
     (length (heap s) ≤ q)%nat ∧
     ∃ img,
       heap s !! p = Some img ∧
       heap (final r) !! q =
         Some (docker.mkImage (docker.ID img) targetRepo targetPath
                 (docker.Tags img))).
Proof.
  intros Hps r targetRepo targetPath.
  destruct (tag_shape client SplitRef images targetRef s Hps)
    as (_ & news & Hheap & Hok).
  fold r in Hheap, Hok. fold targetRepo targetPath in Hok. split.
  - intros p img Hp. rewrite Hheap. by apply lookup_app_l_Some.
  - intros Hnone. destruct (Hok Hnone) as [Hres Hnews].
    rewrite Hres. split; [by rewrite length_seq|].
    intros i p q Hi Hq. apply lookup_seq in Hq as [-> Hlt].
    split; [lia|].
    rewrite Forall_forall in Hps.
    assert (Hp : p < length (heap s))
      by (apply Hps; by eapply list_elem_of_lookup_2).
    exists (heap s !!! p). split.
    + by apply list_lookup_lookup_total_lt.
    + rewrite Hheap, lookup_app_r by lia.
      replace (length (heap s) + i - length (heap s))%nat with i by lia.
      rewrite Hnews.
      exact (lookup_map_Some
               (fun p => retagged targetRepo targetPath (heap s !!! p))
               images i p Hi).
Qed.

(** Two images on the heap, re-tagged under [example.com/mirror/alpine]. *)
Lemma tag_leaves_sources_unchanged_witness :
  let s := mkStore 0 [Demo.alpine; Demo.alpine2] in
  let r := tag (Demo.client [] [] [] [] []) Demo.SplitRef [0; 1]%nat
             "example.com/mirror/alpine" s in
  Forall (fun p => p < length (heap s)) [0; 1]%nat ∧
  (result r).2 = None ∧
  heap (final r) !! 0%nat = Some Demo.alpine ∧
  heap (final r) !! 1%nat = Some Demo.alpine2 ∧
  length (result r).1 = 2%nat.
Proof.
  set (s := mkStore 0 [Demo.alpine; Demo.alpine2]).
  assert (Hps : Forall (fun p => p < length (heap s)) [0; 1]%nat).
  { repeat constructor. }
  assert (Hnone : (result (tag (Demo.client [] [] [] [] []) Demo.SplitRef
                             [0; 1]%nat "example.com/mirror/alpine" s)).2
                  = None) by (by vm_compute).
  destruct (tag_leaves_sources_unchanged (Demo.client [] [] [] [] [])
              Demo.SplitRef [0; 1]%nat "example.com/mirror/alpine" s Hps)
    as [Hframe Hfresh].
  split; [exact Hps|]. split; [exact Hnone|].
  split; [by apply Hframe|]. split; [by apply Hframe|].
  exact (proj1 (Hfresh Hnone)).
Defined.

(** ** Runs of a task *)

Section TaskFacts.

Context {W : Type}.
Variable client : docker.Client W.
Variable ops : TaskOps W.
Variable SplitRef : string → string * string * string.
Variable RefWithTags : docker.Image → string.

Lemma Sync_steps_marks (srcRef srcAuth trgtRef trgtAuth : string)
    (tags : list string) (verbose : bool) (s : store W) :
  let tr := trace (Sync client SplitRef RefWithTags srcRef srcAuth trgtRef
                     trgtAuth tags verbose s) in
  steps tr = [StSync] ∧ marks tr = [].
Proof.
  destruct (Sync client SplitRef RefWithTags srcRef srcAuth trgtRef trgtAuth
              tags verbose s) as [[res s'] tr] eqn:Hrun.
  unfold trace. simpl.
  apply Sync_cases in Hrun
    as [(pre & ref & allTags & e0 & -> & -> & Hc)
       |(tr1 & tr2 & imgs & tr3 & tl & -> & (Ho1 & _) & (Ho2 & _) & (Ho3 & _)
           & Hend)].
  - assert (Hpre : only isPullEv
              (pre ++ [EvPull ref allTags srcAuth verbose (Some e0)])).
    { apply Forall_app. split; [|by repeat constructor].
      destruct tags; [destruct Hc as (-> & _); constructor|].
      destruct Hc as (_ & done & tg & rest & _ & _ & ->). apply only_okPull. }
    unfold steps, marks. cbn [flat_map]. quiet. done.
  - destruct (uptoTag_reads RefWithTags srcRef trgtRef tr1 tr2 imgs tr3 tl
                Ho1 Ho2 Ho3) as (_ & _ & _ & _ & _ & _ & _ & _ & Hst & Hmk).
    rewrite Hst, Hmk.
    by destruct Hend as [(e & pre & id & ref & -> & _)|(_ & _ & pr & -> & _)].
Qed.

(** One mapping, step by step. *)
Lemma syncMapping_run (t : task) (m : mapping) (s : store W) :
  let refs := mappingRefs ops t m in
  let a1 := refreshAuth ops (Source t) (world s) in
  let a2 := refreshAuth ops (Target t) a1.2 in
  let t2 := withTarget (withSource t a1.1.2) a2.1.2 in
  let a3 := ensureTargetExists ops t2 refs.2 a2.2 in
  let r4 := Sync client SplitRef RefWithTags refs.1 (Auth a1.1.2) refs.2
              (Auth a2.1.2) (MTags m) (Verbose t) (mkStore a3.2 (heap s)) in
  trace (syncMapping client ops SplitRef RefWithTags t m s) =
    [EvLog "INFO" "mapping '%s' to '%s'" [MFrom m; MTo m];
     EvRefreshAuth SourceEnd (Source t) a1.1.1] ++ logged a1.1.1 ++
    [EvRefreshAuth TargetEnd (Target t) a2.1.1] ++ logged a2.1.1 ++
    [EvEnsure refs.2 a3.1] ++ logged a3.1 ++
    trace r4 ++ logged (result r4) ∧
  result (syncMapping client ops SplitRef RefWithTags t m s) = t2 ∧
  final (syncMapping client ops SplitRef RefWithTags t m s) = final r4.
Proof.
  unfold syncMapping, refreshSource, refreshTarget, ensureTarget.
  destruct (mappingRefs ops t m) as [src trgt]. run.
  destruct (refreshAuth ops (Source t) (world s)) as [[e1 l1] w1]. run.
  cbn [withSource withTarget Source Target Verbose].
  destruct (refreshAuth ops (Target t) w1) as [[e2 l2] w2]. run.
  cbn [withSource withTarget Source Target Verbose].
  destruct (ensureTargetExists ops _ trgt w2) as [e3 w3]. run.
  done.
Qed.

Lemma logged_quiet (err : option error) :
  flat_map stepOf (logged err) = [] ∧ flat_map markOf (logged err) = [].
Proof. by destruct err. Qed.

Lemma syncMapping_steps_marks (t : task) (m : mapping) (s : store W) :
  let tr := trace (syncMapping client ops SplitRef RefWithTags t m s) in
  steps tr = stepsOfMapping m ∧ marks tr = [].
Proof.
  destruct (syncMapping_run t m s) as (Htr & _). simpl. rewrite Htr.
  match goal with
  | |- context [trace (Sync _ _ _ ?a ?b ?c ?d ?e ?f ?st)] =>
      destruct (Sync_steps_marks a b c d e f st) as [Hs Hm];
      set (r4 := Sync client SplitRef RefWithTags a b c d e f st) in *
  end.
  clearbody r4. unfold steps, marks in *. simpl in Hs, Hm.
  repeat (rewrite ?flat_map_app; cbn [flat_map app]).
  rewrite Hs, Hm.
  repeat match goal with
         | |- context [flat_map stepOf (logged ?e)] =>
             rewrite (proj1 (logged_quiet e))
         | |- context [flat_map markOf (logged ?e)] =>
             rewrite (proj2 (logged_quiet e))
         end.
  done.
Qed.

Lemma syncMappings_app (t : task) (pre post : list mapping) (s : store W) :
  let before := syncMappings client ops SplitRef RefWithTags t pre s in
  let after := syncMappings client ops SplitRef RefWithTags (result before)
                 post (final before) in
  trace (syncMappings client ops SplitRef RefWithTags t (pre ++ post) s) =
    trace before ++ trace after ∧
  result (syncMappings client ops SplitRef RefWithTags t (pre ++ post) s) =
    result after ∧
  final (syncMappings client ops SplitRef RefWithTags t (pre ++ post) s) =
    final after.
Proof.
  revert t s. induction pre as [|m pre IH]; intros t s; simpl; [by run|].
  run.
  destruct (IH (result (syncMapping client ops SplitRef RefWithTags t m s))
              (final (syncMapping client ops SplitRef RefWithTags t m s)))
    as (Ht & Hr & Hf).
  simpl in Ht, Hr, Hf. by rewrite Ht, Hr, Hf, app_assoc.
Qed.

Lemma syncMappings_steps_marks (t : task) (ms : list mapping) (s : store W) :
  let tr := trace (syncMappings client ops SplitRef RefWithTags t ms s) in
  steps tr = flat_map stepsOfMapping ms ∧ marks tr = [].
Proof.
  revert t s. induction ms as [|m ms IH]; intros t s; simpl; [done|].
  run. unfold steps, marks in *. rewrite !flat_map_app.
  destruct (syncMapping_steps_marks t m s) as [Hs Hm].
  destruct (IH (result (syncMapping client ops SplitRef RefWithTags t m s))
              (final (syncMapping client ops SplitRef RefWithTags t m s)))
    as [Hs' Hm'].
  simpl in Hs, Hm, Hs', Hm'. unfold steps, marks in *.
  by rewrite Hs, Hm, Hs', Hm'.
Qed.

Lemma SyncTask_run (t : task) (s : store W) :
  let body := syncMappings client ops SplitRef RefWithTags t (Mappings t) s in
  trace (SyncTask client ops SplitRef RefWithTags t s) =
    EvLog "INFO" "syncing task '%s': '%s' --> '%s'"
      [Name t; Registry (Source t); Registry (Target t)] ::
    trace body ++ [EvLog "INFO" "" []] ∧
  final (SyncTask client ops SplitRef RefWithTags t s) = final body.
Proof. unfold SyncTask, LogPrintln. by run. Qed.

Lemma SyncTask_steps_marks (t : task) (s : store W) :
  let tr := trace (SyncTask client ops SplitRef RefWithTags t s) in
  steps tr = flat_map stepsOfMapping (Mappings t) ∧ marks tr = [MkTask (Name t)].
Proof.
  destruct (SyncTask_run t s) as [Htr _]. simpl. rewrite Htr.
  destruct (syncMappings_steps_marks t (Mappings t) s) as [Hs Hm].
  simpl in Hs, Hm. unfold steps, marks in *. cbn [flat_map].
  rewrite !flat_map_app, Hs, Hm. simpl. by rewrite app_nil_r.
Qed.

End TaskFacts.

(** ** The mappings of a task *)

(** C5.  [SyncTask] goes through the mappings of the task in the order
    of the list, and does for each one, whatever the steps before
    returned, the refresh of the source, the refresh of the target, the
    creation of the target and [Sync], in this order; [Sync] gets the
    credentials the two refreshes left; an error of a step is logged and
    the next step, and the next mapping, follow. *)
Theorem SyncTask_processes_every_mapping {W : Type} (client : docker.Client W)
    (ops : TaskOps W) (SplitRef : string → string * string * string)
    (RefWithTags : docker.Image → string) (t : task) (s : store W) :
  steps (trace (SyncTask client ops SplitRef RefWithTags t s)) =
    flat_map stepsOfMapping (Mappings t) ∧
  ∀ pre m post,
    Mappings t = pre ++ m :: post →
    runsMapping client ops SplitRef RefWithTags t s pre m post.
Proof.
  split; [apply SyncTask_steps_marks|].
  intros pre m post Hms. unfold runsMapping.
  destruct (SyncTask_run client ops SplitRef RefWithTags t s) as [-> _].
  rewrite Hms. f_equal.
  destruct (syncMappings_app client ops SplitRef RefWithTags t pre (m :: post) s)
    as (-> & _).
  set (before := syncMappings client ops SplitRef RefWithTags t pre s).
  rewrite <- !app_assoc. f_equal. cbn [syncMappings]. run.
  destruct (syncMapping_run client ops SplitRef RefWithTags (result before) m
              (final before)) as (-> & -> & ->).
  by rewrite <- !app_assoc.
Qed.

(** A task of two mappings; the pull of the first one fails, and the
    second one is processed all the same. *)
Lemma SyncTask_processes_every_mapping_witness :
  Mappings Demo.once = [Demo.mirror ["3.18"]] ++ Demo.mirror ["3.19"] :: [] ∧
  runsMapping (Demo.client ["docker.io/library/alpine:3.18"] [] [] []
                 Demo.table)
    (Demo.ops [] (fun _ => Demo.once)) Demo.SplitRef Demo.RefWithTags
    Demo.once Demo.start [Demo.mirror ["3.18"]] (Demo.mirror ["3.19"]) [].
Proof.
  split; [reflexivity|].
  exact (proj2 (SyncTask_processes_every_mapping
                  (Demo.client ["docker.io/library/alpine:3.18"] [] [] []
                     Demo.table)
                  (Demo.ops [] (fun _ => Demo.once)) Demo.SplitRef
                  Demo.RefWithTags Demo.once Demo.start)
           [Demo.mirror ["3.18"]] (Demo.mirror ["3.19"]) [] eq_refl).
Defined.

(** ** Runs of the configuration *)

Section ConfigFacts.

Context {W : Type}.
Variable client : docker.Client W.
Variable ops : TaskOps W.
Variable SplitRef : string → string * string * string.
Variable RefWithTags : docker.Image → string.

Lemma oneOffTasks_marks (ts : list task) (s : store W) :
  marks (trace (oneOffTasks client ops SplitRef RefWithTags ts s)) =
  map (fun t => MkTask (Name t)) (List.filter oneOff ts).
Proof.
  revert s. induction ts as [|t ts IH]; intros s; simpl; [done|].
  run. unfold marks in *. rewrite flat_map_app, IH. unfold oneOff.
  destruct (Interval t =? 0)%Z; run; [|done].
  destruct (SyncTask_steps_marks client ops SplitRef RefWithTags t s)
    as [_ Hm].
  simpl in Hm. unfold marks in Hm. by rewrite Hm.
Qed.

Lemma startTickers_run (ts : list task) (ticking : bool) (s : store W) :
  let r := startTickers ops ts ticking s in
  result r = ticking || existsb recurring ts ∧
  marks (trace r) = map (fun t => MkStart (Name t)) (List.filter recurring ts).
Proof.
  revert ticking s.
  induction ts as [|t ts IH]; intros ticking s; simpl.
  - by rewrite orb_false_r.
  - unfold recurring at 1 3. destruct (0 <? Interval t)%Z.
    + run. destruct (IH true (mkStore (startTicking ops t (world s)) (heap s)))
        as [Hr Hm].
      simpl in Hr, Hm. rewrite Hr. unfold marks in *. cbn [flat_map].
      rewrite Hm. by rewrite orb_true_r.
    + destruct (IH ticking s) as [Hr Hm]. simpl in Hr, Hm.
      by rewrite Hr, Hm.
Qed.

Lemma tickLoop_stopped (fuel : nat) (s : store W) :
  tickLoop client ops SplitRef RefWithTags fuel false s = (true, s, []).
Proof. by destruct fuel. Qed.

Lemma tickLoop_ticking (fuel : nat) (s : store W) :
  let r := tickLoop client ops SplitRef RefWithTags fuel true s in
  result r = false ∧
  ∃ received,
    length received = fuel ∧ marks (trace r) = tickMarks received.
Proof.
  revert s. induction fuel as [|fuel IH]; intros s; simpl.
  - split; [done|]. by exists [].
  - unfold LogPrintln. run.
    destruct (recv ops (world s)) as [t w] eqn:Hrecv. simpl.
    set (s1 := final (SyncTask client ops SplitRef RefWithTags t
                        (mkStore w (heap s)))).
    destruct (IH s1) as [Hr (received & Hlen & Hm)]. simpl in Hr, Hm.
    split; [done|]. exists (t :: received). split; [by rewrite <- Hlen|].
    destruct (SyncTask_steps_marks client ops SplitRef RefWithTags t
                (mkStore w (heap s))) as [_ Ht].
    simpl in Ht. unfold marks, tickMarks in *. cbn [flat_map].
    by rewrite flat_map_app, Ht, Hm.
Qed.

(** [SyncFromConfig] after the ping. *)
Lemma afterPing_run (fuel : nat) (ts : list task) (s : store W) :
  let r :=
    bind (oneOffTasks client ops SplitRef RefWithTags ts)
      (fun _ =>
         bind (startTickers ops ts false)
           (fun ticking =>
              bind (tickLoop client ops SplitRef RefWithTags fuel ticking)
                (fun left : bool =>
                   if left
                   then bind (LogInfo "all done" [])
                          (fun _ => ret (Returned None))
                   else ret Running))) s in
  (∃ received,
     length received = (if existsb recurring ts then fuel else 0%nat) ∧
     MkPing 30 10000000000 :: marks (trace r) = configMarks ts received) ∧
  result r = if existsb recurring ts then Running else Returned None.
Proof.
  run.
  set (s2 := final (oneOffTasks client ops SplitRef RefWithTags ts s)).
  pose proof (oneOffTasks_marks ts s) as Hone.
  destruct (startTickers_run ts false s2) as [Hr Hm].
  simpl in Hr, Hm. rewrite Hr.
  set (s3 := final (startTickers ops ts false s2)) in *.
  clearbody s3 s2.
  unfold configMarks, marks in *. rewrite !flat_map_app, Hone, Hm.
  destruct (existsb recurring ts) eqn:Hrec.
  - destruct (tickLoop_ticking fuel s3) as [Hres (received & Hlen & Hmk)].
    simpl in Hres, Hmk. rewrite Hres. run. split; [|done].
    exists received. split; [done|].
    unfold marks in Hmk. by rewrite Hmk.
  - rewrite tickLoop_stopped. run. split; [|done].
    by exists [].
Qed.

(** A run of [SyncFromConfig]: how it starts, its marks, its outcome. *)
Lemma SyncFromConfig_run (fuel : nat) (conf : syncConfig) (s : store W) :
  let r := SyncFromConfig client ops SplitRef RefWithTags fuel conf s in
  let pr := (docker.Ping client 30 10000000000 (world s)).1 in
  (∃ rest,
     trace r =
       EvLog "INFO" "" [] :: EvLog "INFO" "pinging Docker daemon..." [] ::
       EvPing 30 10000000000 pr ::
       match pr with
       | Some e => EvLogError e
       | None => EvLog "INFO" "ok" []
       end :: rest) ∧
  (∃ received,
     length received =
       (if existsb recurring (Tasks conf) then fuel else 0%nat) ∧
     marks (trace r) = configMarks (Tasks conf) received) ∧
  result r =
    if existsb recurring (Tasks conf) then Running else Returned None.
Proof.
  unfold SyncFromConfig, LogPrintln, Second.
  change (10 * 1000000000)%Z with 10000000000%Z.
  run.
  destruct (docker.Ping client 30 10000000000 (world s)) as [[e|] w];
    cbn [fst snd world heap]; run;
    destruct (afterPing_run fuel (Tasks conf) (mkStore w (heap s)))
      as [(received & Hlen & Hm) Hr];
    simpl in Hm, Hr; run_in Hm; run_in Hr;
    (split; [by eexists|]); (split; [|exact Hr]);
    exists received; (split; [done|]); rewrite <- Hm;
    unfold marks;
    by repeat (rewrite ?flat_map_app; cbn [flat_map app markOf]).
Qed.

End ConfigFacts.

(** ** The scheduler *)


(** A one-off task after a recurring one in the configuration still runs
    before the ticker starts; three ticks are then served. *)
Example SyncFromConfig_one_off_first :
  let r := SyncFromConfig (Demo.client [] [] [] [] Demo.table)
             (Demo.ops [] (fun _ => Demo.hourly)) Demo.SplitRef
             Demo.RefWithTags 3 (mkConfig [Demo.hourly; Demo.once])
             Demo.start in
  marks (trace r) =
    [MkPing 30 10000000000; MkTask "once"; MkStart "hourly";
     MkRecv "hourly"; MkTask "hourly"; MkRecv "hourly"; MkTask "hourly";
     MkRecv "hourly"; MkTask "hourly"] ∧
  result r = Running.
Proof. by vm_compute. Qed.

(** ** What [SyncFromConfig] returns *)



(** ** When [Sync] succeeds *)

Section SyncOutcome.

Context {W : Type}.
Variable client : docker.Client W.
Variable SplitRef : string → string * string * string.
Variable RefWithTags : docker.Image → string.
Variables srcRef srcAuth trgtRef trgtAuth : string.
Variable tags : list string.
Variable verbose : bool.

Lemma pushesOk_last (pre : list Event) (ref : string) (allTags : bool)
    (auth : string) (v : bool) (pr : option error) :
  pushesOk (pre ++ [EvLog "INFO" "pushing target image '%s'" [ref];
                    EvPush ref allTags auth v pr]) →
  pr = None.
Proof.
  unfold pushesOk. rewrite Forall_app. intros [_ H].
  apply Forall_cons in H as [_ H]. apply Forall_cons in H as [H _].
  by destruct pr.
Qed.

Lemma pull_failed_quiet (pre : list Event) (ref : string) (allTags : bool)
    (e0 : error) :
  match tags with
  | [] => pre = [] ∧ ref = srcRef ∧ allTags = true
  | _ :: _ =>
      allTags = false ∧
      ∃ done tg rest,
        tags = done ++ tg :: rest ∧ ref = refTagged srcRef tg ∧
        pre = map (okPull srcRef srcAuth verbose) done
  end →
  only isPullEv (pre ++ [EvPull ref allTags srcAuth verbose (Some e0)]).
Proof.
  intros Hc. apply Forall_app. split; [|by repeat constructor].
  destruct tags; [destruct Hc as (-> & _); constructor|].
  destruct Hc as (_ & done & tg & rest & _ & _ & ->). apply only_okPull.
Qed.

End SyncOutcome.

(** X1.  [Sync] returns [nil] exactly when every pull, every tag call and
    the push of the run succeeded; a list call that failed does not
    count. *)
Theorem Sync_returns_nil_iff {W : Type} (client : docker.Client W)
    (SplitRef : string → string * string * string)
    (RefWithTags : docker.Image → string)
    (srcRef srcAuth trgtRef trgtAuth : string) (tags : list string)
    (verbose : bool) (s : store W) :
  let r := Sync client SplitRef RefWithTags srcRef srcAuth trgtRef trgtAuth
             tags verbose s in
  result r = None ↔
  pullsOk (trace r) ∧ tagsOk (trace r) ∧ pushesOk (trace r).
Proof.
  destruct (Sync client SplitRef RefWithTags srcRef srcAuth trgtRef trgtAuth
              tags verbose s) as [[res s'] tr] eqn:Hrun.
  unfold trace, result. simpl.
  apply Sync_cases in Hrun
    as [(pre & ref & allTags & e0 & -> & -> & Hc)
       |(tr1 & tr2 & imgs & tr3 & tl & -> & (Ho1 & Hk1 & _)
           & (Ho2 & _) & (Ho3 & _) & Hend)].
  - split; [done|]. intros (Hok & _). exfalso.
    exact (failed_pull_not_ok
             (EvLog "INFO" "pulling source image '%s'" [srcRef] :: pre)
             ref allTags srcAuth verbose e0 [] Hok).
  - destruct (uptoTag_oks (fun _ _ _ => True) RefWithTags srcRef trgtRef
                tr1 tr2 imgs tr3 tl Ho1 Ho2 Ho3) as (Hp & Ht & Hs & _).
    destruct Hend as [(e & pre & id & ref & -> & -> & Hpre & ->)
                     |(_ & Hok & pr & -> & ->)].
    + split; [done|]. intros (_ & Hbad & _). exfalso.
      rewrite app_nil_r, uptoTag_snoc in Hbad.
      by apply failed_tag_not_ok in Hbad.
    + split.
      * destruct pr as [e|]; [done|]. intros _.
        split; [apply Hp; [done | by repeat constructor]|].
        split; [apply Ht; [done | by repeat constructor]|].
        apply Hs. by repeat constructor.
      * intros (_ & _ & Hpush). by apply pushesOk_last in Hpush as ->.
Qed.

(** Two list calls out of two fail and [Sync] still returns [nil]. *)
Lemma Sync_returns_nil_iff_witness :
  let r := Sync (Demo.client []
                   ["docker.io/library/alpine:3.18";
                    "docker.io/library/alpine:3.19"] [] [] Demo.table)
             Demo.SplitRef Demo.RefWithTags "docker.io/library/alpine" ""
             "example.com/mirror/alpine" "" ["3.18"; "3.19"] false
             Demo.start in
  (pullsOk (trace r) ∧ tagsOk (trace r) ∧ pushesOk (trace r)) ∧
  result r = None.
Proof.
  assert (Hok :
    let r := Sync (Demo.client []
                     ["docker.io/library/alpine:3.18";
                      "docker.io/library/alpine:3.19"] [] [] Demo.table)
               Demo.SplitRef Demo.RefWithTags "docker.io/library/alpine" ""
               "example.com/mirror/alpine" "" ["3.18"; "3.19"] false
               Demo.start in
    pullsOk (trace r) ∧ tagsOk (trace r) ∧ pushesOk (trace r)).
  { vm_compute. repeat split; repeat constructor. }
  split; [exact Hok|].
  exact (proj2 (Sync_returns_nil_iff
                  (Demo.client []
                     ["docker.io/library/alpine:3.18";
                      "docker.io/library/alpine:3.19"] [] [] Demo.table)
                  Demo.SplitRef Demo.RefWithTags "docker.io/library/alpine" ""
                  "example.com/mirror/alpine" "" ["3.18"; "3.19"] false
                  Demo.start) Hok).
Defined.

(** ** A push that fails *)

(** X2.  If the push of a run fails it is the last event; [Sync] returns
    its error behind ["error pushing target image: "]; every pull and
    every tag call before it succeeded, and the tags of all the images
    listed were set. *)
Theorem Sync_push_failure_returns {W : Type} (client : docker.Client W)
    (SplitRef : string → string * string * string)
    (RefWithTags : docker.Image → string)
    (srcRef srcAuth trgtRef trgtAuth : string) (tags : list string)
    (verbose : bool) (s : store W) :
  let r := Sync client SplitRef RefWithTags srcRef srcAuth trgtRef trgtAuth
             tags verbose s in
  Exists (fun ev => pushFailed ev = true) (trace r) →
  ∃ pre e,
    trace r = pre ++ [EvPush trgtRef true trgtAuth verbose (Some e)] ∧
    result r = Some (errorPushing e) ∧
    pullsOk pre ∧ tagsOk pre ∧ pushCalls pre = [] ∧
    tagCalls pre =
      tagsForAll (SplitRef trgtRef).1.1 (SplitRef trgtRef).1.2
        (enumerated pre).
Proof.
  destruct (Sync client SplitRef RefWithTags srcRef srcAuth trgtRef trgtAuth
              tags verbose s) as [[res s'] tr] eqn:Hrun.
  unfold trace, result. simpl. intros Hex.
  apply Sync_cases in Hrun
    as [(pre & ref & allTags & e0 & -> & -> & Hc)
       |(tr1 & tr2 & imgs & tr3 & tl & -> & (Ho1 & Hk1 & _)
           & (Ho2 & _ & He2 & _) & (Ho3 & _) & Hend)].
  - exfalso.
    pose proof (pull_failed_quiet srcRef srcAuth tags verbose pre ref allTags
                  e0 Hc) as Hq.
    eapply Forall_Exists_false; [|exact Hex]. quiet_all. done.
  - destruct (uptoTag_oks (fun _ _ _ => True) RefWithTags srcRef trgtRef
                tr1 tr2 imgs tr3 tl Ho1 Ho2 Ho3) as (_ & _ & Hs & _).
    destruct Hend as [(e & pre & id & ref & -> & _)
                     |(Hall & Hok & pr & -> & ->)].
    + exfalso. eapply Forall_Exists_false; [|exact Hex].
      apply Hs. constructor.
    + destruct pr as [e|].
      2:{ exfalso. eapply Forall_Exists_false; [|exact Hex].
          apply Hs. by repeat constructor. }
      exists (uptoTag RefWithTags srcRef trgtRef tr1 tr2 imgs tr3 ++
              [EvLog "INFO" "pushing target image '%s'" [trgtRef]]), e.
      destruct (uptoTag_oks (fun _ _ _ => True) RefWithTags srcRef trgtRef
                  tr1 tr2 imgs tr3
                  [EvLog "INFO" "pushing target image '%s'" [trgtRef]]
                  Ho1 Ho2 Ho3) as (Hp' & Ht' & _).
      destruct (uptoTag_reads RefWithTags srcRef trgtRef tr1 tr2 imgs tr3
                  [EvLog "INFO" "pushing target image '%s'" [trgtRef]]
                  Ho1 Ho2 Ho3) as (_ & _ & Htc & Hpc & Hen & _).
      split; [by rewrite <- app_assoc|]. split; [done|].
      split; [apply Hp'; [done | by repeat constructor]|].
      split; [apply Ht'; [done | by repeat constructor]|].
      split; [by rewrite Hpc|].
      rewrite Htc, Hen, He2, Hall.
      change (tagCalls [_]) with (@nil (string * string)).
      change (enumerated [_]) with (@nil docker.Image).
      by rewrite !app_nil_r.
Qed.

(** The push is refused: the tags were set, and the error comes back. *)
Lemma Sync_push_failure_returns_witness :
  let r := Sync (Demo.client [] [] [] ["example.com/mirror/alpine"]
                   Demo.table) Demo.SplitRef Demo.RefWithTags
             "docker.io/library/alpine" "" "example.com/mirror/alpine" ""
             ["3.19"] false Demo.start in
  Exists (fun ev => pushFailed ev = true) (trace r) ∧
  ∃ pre e,
    trace r = pre ++ [EvPush "example.com/mirror/alpine" true "" false
                        (Some e)] ∧
    result r = Some (errorPushing e) ∧
    pullsOk pre ∧ tagsOk pre ∧ pushCalls pre = [] ∧
    tagCalls pre =
      tagsForAll (Demo.SplitRef "example.com/mirror/alpine").1.1
        (Demo.SplitRef "example.com/mirror/alpine").1.2 (enumerated pre).
Proof.
  assert (Hex : Exists (fun ev => pushFailed ev = true)
    (trace (Sync (Demo.client [] [] [] ["example.com/mirror/alpine"]
                    Demo.table) Demo.SplitRef Demo.RefWithTags
              "docker.io/library/alpine" "" "example.com/mirror/alpine" ""
              ["3.19"] false Demo.start))).
  { vm_compute. do 9 apply Exists_cons_tl. by apply Exists_cons_hd. }
  split; [exact Hex|].
  exact (Sync_push_failure_returns
           (Demo.client [] [] [] ["example.com/mirror/alpine"] Demo.table)
           Demo.SplitRef Demo.RefWithTags "docker.io/library/alpine" ""
           "example.com/mirror/alpine" "" ["3.19"] false Demo.start Hex).
Defined.

(** ** The order of the calls of [Sync] *)

Lemma phases_only {X : Type} (p : Event → bool) (g : Event → list X)
    (ph : phase) (tr : list Event) :
  (∀ ev, p ev = true → phaseOf ev = replicate (length (g ev)) ph) →
  only p tr →
  flat_map phaseOf tr = replicate (length (flat_map g tr)) ph.
Proof.
  intros Hg. induction 1 as [|ev tr Hev _ IH]; simpl; [done|].
  by rewrite length_app, replicate_add, (Hg ev Hev), IH.
Qed.

Lemma phases_pulls (tr : list Event) :
  only isPullEv tr →
  flat_map phaseOf tr = replicate (length (flat_map pullCall tr)) PhPull.
Proof. apply phases_only. by intros []. Qed.

Lemma phases_lists (tr : list Event) :
  only isListEv tr →
  flat_map phaseOf tr = replicate (length (flat_map listCall tr)) PhList.
Proof. apply phases_only. by intros []. Qed.

Lemma phases_tags (tr : list Event) :
  only isTagEv tr →
  flat_map phaseOf tr = replicate (length (flat_map tagCall tr)) PhTag.
Proof. apply phases_only. by intros []. Qed.

(** X3.  The calls of a run of [Sync] come phase by phase: all the pulls,
    then all the list calls, then all the tag calls, then the push; no
    call of an earlier phase follows a call of a later one. *)
Theorem Sync_calls_in_phases {W : Type} (client : docker.Client W)
    (SplitRef : string → string * string * string)
    (RefWithTags : docker.Image → string)
    (srcRef srcAuth trgtRef trgtAuth : string) (tags : list string)
    (verbose : bool) (s : store W) :
  let tr := trace (Sync client SplitRef RefWithTags srcRef srcAuth trgtRef
                     trgtAuth tags verbose s) in
  phases tr =
    replicate (length (pullCalls tr)) PhPull ++
    replicate (length (listCalls tr)) PhList ++
    replicate (length (tagCalls tr)) PhTag ++
    replicate (length (pushCalls tr)) PhPush.
Proof.
  destruct (Sync client SplitRef RefWithTags srcRef srcAuth trgtRef trgtAuth
              tags verbose s) as [[res s'] tr] eqn:Hrun.
  unfold trace. simpl.
  apply Sync_cases in Hrun
    as [(pre & ref & allTags & e0 & -> & -> & Hc)
       |(tr1 & tr2 & imgs & tr3 & tl & -> & (Ho1 & _)
           & (Ho2 & _) & (Ho3 & _) & Hend)].
  - pose proof (pull_failed_quiet srcRef srcAuth tags verbose pre ref allTags
                  e0 Hc) as Hq.
    unfold phases, pullCalls, listCalls, tagCalls, pushCalls.
    cbn [flat_map phaseOf pullCall listCall tagCall pushCall app].
    rewrite (phases_pulls _ Hq). quiet. by rewrite !app_nil_r.
  - rewrite uptoTag_flat.
    unfold phases, pullCalls, listCalls, tagCalls, pushCalls.
    repeat (rewrite ?flat_map_app;
            cbn [flat_map phaseOf pullCall listCall tagCall pushCall app]).
    rewrite (phases_pulls _ Ho1), (phases_lists _ Ho2), (phases_tags _ Ho3).
    quiet. rewrite ?app_nil_r.
    destruct Hend as [(e & pre & id & ref & -> & _)|(_ & _ & pr & -> & _)];
      simpl; by rewrite ?app_nil_r.
Qed.

(** ** The references [Sync] pulls and lists *)

(** X4.  Whatever fails, [Sync] pulls at least one reference, and the
    references it pulls are the first ones of those it is to pull, in
    order; it lists either nothing or every reference it is to list. *)
Theorem Sync_pulls_prefix_of_expected {W : Type} (client : docker.Client W)
    (SplitRef : string → string * string * string)
    (RefWithTags : docker.Image → string)
    (srcRef srcAuth trgtRef trgtAuth : string) (tags : list string)
    (verbose : bool) (s : store W) :
  let tr := trace (Sync client SplitRef RefWithTags srcRef srcAuth trgtRef
                     trgtAuth tags verbose s) in
  pullCalls tr ≠ [] ∧
  pullCalls tr `prefix_of` expectedPulls srcRef srcAuth verbose tags ∧
  (listCalls tr = [] ∨ listCalls tr = expectedLists srcRef tags).
Proof.
  destruct (Sync client SplitRef RefWithTags srcRef srcAuth trgtRef trgtAuth
              tags verbose s) as [[res s'] tr] eqn:Hrun.
  unfold trace. simpl.
  apply Sync_cases in Hrun
    as [(pre & ref & allTags & e0 & -> & -> & Hc)
       |(tr1 & tr2 & imgs & tr3 & tl & -> & (Ho1 & Hk1 & Hc1)
           & (Ho2 & Hc2 & _) & (Ho3 & _) & Hend)].
  - pose proof (pull_failed_quiet srcRef srcAuth tags verbose pre ref allTags
                  e0 Hc) as Hq.
    assert (Hpc : pullCalls
                    (EvLog "INFO" "pulling source image '%s'" [srcRef] ::
                     pre ++ [EvPull ref allTags srcAuth verbose (Some e0)]) =
                  pullCalls pre ++ [(ref, allTags, srcAuth, verbose)]).
    { unfold pullCalls. cbn [flat_map pullCall app].
      by rewrite flat_map_app. }
    rewrite Hpc. split; [by destruct (pullCalls pre)|]. split.
    + destruct tags as [|t0 ts].
      * by destruct Hc as (-> & -> & ->).
      * destruct Hc as (-> & done & tg & rest & Htags & -> & ->).
        rewrite pullCalls_okPull. unfold expectedPulls. rewrite Htags.
        destruct done as [|d done]; simpl.
        -- by exists
             (map (fun tg => (refTagged srcRef tg, false, srcAuth, verbose))
                  rest).
        -- apply prefix_cons. rewrite map_app. simpl.
           apply prefix_app, prefix_cons, prefix_nil.
    + left. unfold listCalls. cbn [flat_map listCall app]. by quiet.
  - destruct (uptoTag_reads RefWithTags srcRef trgtRef tr1 tr2 imgs tr3 tl
                Ho1 Ho2 Ho3) as (Hpc & Hlc & _).
    assert (Htl : pullCalls tl = [] ∧ listCalls tl = []).
    { by destruct Hend as [(e & pre & id & ref & -> & _)|(_ & _ & pr & -> & _)]. }
    destruct Htl as [Htl1 Htl2].
    rewrite Hpc, Hlc, Hc1, Hc2, Htl1, Htl2, !app_nil_r.
    split; [by destruct tags|]. split; [done | by right].
Qed.

(** ** The images [Sync] logs *)

Lemma imageLines_logImage (R : docker.Image → string)
    (imgs : list docker.Image) :
  flat_map imageLine (map (logImage R) imgs) = map R imgs.
Proof. induction imgs as [|img imgs IH]; simpl; [done | by rewrite IH]. Qed.

(** X5.  [Sync] logs one line per image the list calls returned, in
    their order, and the line is the image's [RefWithTags]. *)
Theorem Sync_logs_every_image {W : Type} (client : docker.Client W)
    (SplitRef : string → string * string * string)
    (RefWithTags : docker.Image → string)
    (srcRef srcAuth trgtRef trgtAuth : string) (tags : list string)
    (verbose : bool) (s : store W) :
  let tr := trace (Sync client SplitRef RefWithTags srcRef srcAuth trgtRef
                     trgtAuth tags verbose s) in
  imageLines tr = map RefWithTags (enumerated tr).
Proof.
  destruct (Sync client SplitRef RefWithTags srcRef srcAuth trgtRef trgtAuth
              tags verbose s) as [[res s'] tr] eqn:Hrun.
  unfold trace. simpl.
  apply Sync_cases in Hrun
    as [(pre & ref & allTags & e0 & -> & -> & Hc)
       |(tr1 & tr2 & imgs & tr3 & tl & -> & (Ho1 & _)
           & (Ho2 & _ & He2 & _) & (Ho3 & _) & Hend)].
  - pose proof (pull_failed_quiet srcRef srcAuth tags verbose pre ref allTags
                  e0 Hc) as Hq.
    unfold imageLines, enumerated. simpl. by quiet.
  - destruct (uptoTag_reads RefWithTags srcRef trgtRef tr1 tr2 imgs tr3 tl
                Ho1 Ho2 Ho3) as (_ & _ & _ & _ & Hen & _).
    rewrite Hen, He2. rewrite uptoTag_flat. unfold imageLines.
    repeat (rewrite ?flat_map_app; cbn [flat_map app]).
    rewrite imageLines_logImage. quiet.
    destruct Hend as [(e & pre & id & ref & -> & _)|(_ & _ & pr & -> & _)];
      simpl; by rewrite ?app_nil_r.
Qed.

(** ** The heap under the engine *)

Section KeepsHeap.

Context {W : Type}.
Variable client : docker.Client W.
Variable ops : TaskOps W.
Variable SplitRef : string → string * string * string.
Variable RefWithTags : docker.Image → string.

Lemma keeps_ret {A : Type} (a : A) : keepsHeap (W := W) (ret a).
Proof. by intros s. Qed.

Lemma keeps_bind {A B : Type} (m : M W A) (f : A → M W B) :
  keepsHeap m → (∀ a, keepsHeap (f a)) → keepsHeap (bind m f).
Proof.
  intros Hm Hf s. rewrite final_bind.
  transitivity (heap (final (m s))); [apply Hm | apply Hf].
Qed.

Lemma keeps_call {A : Type} (f : W → A * W) (ev : A → Event) :
  keepsHeap (call f ev).
Proof. intros s. by rewrite final_call. Qed.

Lemma keeps_emit (ev : Event) : keepsHeap (W := W) (emit ev).
Proof. by intros s. Qed.

Lemma keeps_alloc (img : docker.Image) : keepsHeap (W := W) (alloc img).
Proof. intros s. simpl. by apply prefix_app_r. Qed.

Lemma keeps_load (p : ptr) : keepsHeap (W := W) (load p).
Proof. by intros s. Qed.

Ltac keeps :=
  repeat first
    [ simple apply keeps_ret | simple apply keeps_emit
    | simple apply keeps_call | simple apply keeps_alloc
    | simple apply keeps_load | assumption
    | simple apply keeps_bind; [|intros ?]
    | match goal with
      | |- keepsHeap (match ?x with _ => _ end) => destruct x
      end ].

Lemma keeps_LogInfo (msg : string) (ps : list string) :
  keepsHeap (W := W) (LogInfo msg ps).
Proof. by intros s. Qed.

Lemma keeps_LogError (err : option error) : keepsHeap (W := W) (LogError err).
Proof. unfold LogError. keeps. Qed.

Lemma keeps_allocAll (imgs : list docker.Image) :
  keepsHeap (W := W) (allocAll imgs).
Proof. induction imgs; cbn [allocAll]; keeps. Qed.

Lemma keeps_listImages (ref : string) : keepsHeap (listImages client ref).
Proof. unfold listImages. keeps. apply keeps_allocAll. Qed.

Lemma keeps_pullTags (srcRef srcAuth : string) (verbose : bool)
    (tags : list string) :
  keepsHeap (pullTags client srcRef srcAuth verbose tags).
Proof. induction tags; cbn [pullTags]; unfold pull; keeps. Qed.

Lemma keeps_listTags (srcRef : string) (tags : list string) (acc : list ptr) :
  keepsHeap (listTags client srcRef tags acc).
Proof.
  revert acc. induction tags as [|tg rest IH]; intros acc; cbn [listTags];
    [apply keeps_ret|].
  apply keeps_bind; [apply keeps_listImages|]. intros [ps err].
  apply keeps_bind; [|intros _; apply IH].
  destruct err; [|apply keeps_ret].
  apply keeps_bind; [apply keeps_LogError|]. intros _. apply keeps_ret.
Qed.

Lemma keeps_logImages (ps : list ptr) :
  keepsHeap (W := W) (logImages RefWithTags ps).
Proof.
  induction ps as [|p ps IH]; cbn [logImages]; [apply keeps_ret|].
  apply keeps_bind; [apply keeps_load|]. intros img.
  apply keeps_bind; [apply keeps_LogInfo|]. by intros _.
Qed.

Lemma keeps_tagTags (id ref : string) (tags : list string) :
  keepsHeap (tagTags client id ref tags).
Proof. induction tags; cbn [tagTags]; keeps. Qed.

Lemma keeps_tagImages (targetRepo targetPath : string) (ps acc : list ptr) :
  keepsHeap (tagImages client targetRepo targetPath ps acc).
Proof.
  revert acc. induction ps as [|p ps IH]; intros acc; cbn [tagImages];
    [apply keeps_ret|].
  apply keeps_bind; [apply keeps_load|]. intros img.
  apply keeps_bind; [apply keeps_alloc|]. intros q.
  apply keeps_bind; [apply keeps_load|]. intros tg.
  apply keeps_bind; [apply keeps_tagTags|].
  intros [e|]; [apply keeps_ret | apply IH].
Qed.

Lemma keeps_tag (ps : list ptr) (targetRef : string) :
  keepsHeap (tag client SplitRef ps targetRef).
Proof.
  unfold tag. destruct (SplitRef targetRef) as [[repo path] tg].
  apply keeps_tagImages.
Qed.

Lemma keeps_Sync (srcRef srcAuth trgtRef trgtAuth : string)
    (tags : list string) (verbose : bool) :
  keepsHeap (Sync client SplitRef RefWithTags srcRef srcAuth trgtRef trgtAuth
               tags verbose).
Proof.
  unfold Sync, pull, push.
  apply keeps_bind; [apply keeps_LogInfo|]. intros _.
  apply keeps_bind.
  { destruct tags; [keeps | apply keeps_pullTags]. }
  intros [e|]; [keeps|].
  apply keeps_bind; [apply keeps_LogInfo|]. intros _.
  apply keeps_bind.
  { destruct tags; [|apply keeps_listTags].
    apply keeps_bind; [apply keeps_listImages|].
    intros [ps [e|]]; keeps. apply keeps_LogError. }
  intros ps.
  apply keeps_bind; [apply keeps_logImages|]. intros _.
  apply keeps_bind; [apply keeps_LogInfo|]. intros _.
  apply keeps_bind; [apply keeps_tag|].
  intros [qs [e|]]; simpl; keeps. apply keeps_LogInfo.
Qed.

Lemma keeps_syncMapping (t : task) (m : mapping) :
  keepsHeap (syncMapping client ops SplitRef RefWithTags t m).
Proof.
  unfold syncMapping, refreshSource, refreshTarget, ensureTarget.
  destruct (mappingRefs ops t m) as [src trgt].
  apply keeps_bind; [apply keeps_LogInfo|]. intros _.
  apply keeps_bind; [keeps|]. intros r1.
  apply keeps_bind; [apply keeps_LogError|]. intros _.
  apply keeps_bind; [keeps|]. intros r2.
  apply keeps_bind; [apply keeps_LogError|]. intros _.
  apply keeps_bind; [keeps|]. intros e3.
  apply keeps_bind; [apply keeps_LogError|]. intros _.
  apply keeps_bind; [apply keeps_Sync|]. intros e4.
  apply keeps_bind; [apply keeps_LogError|]. intros _.
  apply keeps_ret.
Qed.

Lemma keeps_syncMappings (t : task) (ms : list mapping) :
  keepsHeap (syncMappings client ops SplitRef RefWithTags t ms).
Proof.
  revert t. induction ms as [|m ms IH]; intros t; simpl; [apply keeps_ret|].
  apply keeps_bind; [apply keeps_syncMapping | apply IH].
Qed.

Lemma keeps_SyncTask (t : task) :
  keepsHeap (SyncTask client ops SplitRef RefWithTags t).
Proof.
  unfold SyncTask, LogPrintln.
  apply keeps_bind; [apply keeps_LogInfo|]. intros _.
  apply keeps_bind; [apply keeps_syncMappings|]. intros t'.
  apply keeps_bind; [apply keeps_LogInfo|]. intros _. apply keeps_ret.
Qed.

Lemma keeps_oneOffTasks (ts : list task) :
  keepsHeap (oneOffTasks client ops SplitRef RefWithTags ts).
Proof.
  induction ts as [|t ts IH]; simpl; [apply keeps_ret|].
  apply keeps_bind; [|by intros _].
  destruct (Interval t =? 0)%Z; [|apply keeps_ret].
  apply keeps_bind; [apply keeps_SyncTask|]. intros _. apply keeps_ret.
Qed.

Lemma keeps_startTickers (ts : list task) (ticking : bool) :
  keepsHeap (startTickers ops ts ticking).
Proof.
  revert ticking. induction ts as [|t ts IH]; intros ticking; simpl;
    [apply keeps_ret|].
  destruct (0 <? Interval t)%Z; [|apply IH].
  apply keeps_bind; [apply keeps_call|]. intros _. apply IH.
Qed.

Lemma keeps_tickLoop (fuel : nat) (ticking : bool) :
  keepsHeap (tickLoop client ops SplitRef RefWithTags fuel ticking).
Proof.
  induction fuel as [|fuel IH]; destruct ticking; simpl;
    try apply keeps_ret.
  unfold LogPrintln.
  apply keeps_bind; [apply keeps_LogInfo|]. intros _.
  apply keeps_bind; [apply keeps_LogInfo|]. intros _.
  apply keeps_bind; [apply keeps_LogInfo|]. intros _.
  apply keeps_bind; [apply keeps_call|]. intros t.
  apply keeps_bind; [apply keeps_SyncTask|]. intros _. apply IH.
Qed.

Lemma keeps_SyncFromConfig (fuel : nat) (conf : syncConfig) :
  keepsHeap (SyncFromConfig client ops SplitRef RefWithTags fuel conf).
Proof.
  unfold SyncFromConfig, LogPrintln.
  apply keeps_bind; [apply keeps_LogInfo|]. intros _.
  apply keeps_bind; [apply keeps_LogInfo|]. intros _.
  apply keeps_bind; [apply keeps_call|]. intros err.
  apply keeps_bind.
  { destruct err; [|apply keeps_LogInfo].
    apply keeps_bind; [apply keeps_LogError|]. intros _. apply keeps_ret. }
  intros _.
  apply keeps_bind; [apply keeps_oneOffTasks|]. intros _.
  apply keeps_bind; [apply keeps_startTickers|]. intros ticking.
  apply keeps_bind; [apply keeps_tickLoop|]. intros [|]; [|apply keeps_ret].
  apply keeps_bind; [apply keeps_LogInfo|]. intros _. apply keeps_ret.
Qed.

End KeepsHeap.


(** ** Tasks the scheduler passes over *)

Section Scheduling.

Context {W : Type}.
Variable client : docker.Client W.
Variable ops : TaskOps W.
Variable SplitRef : string → string * string * string.
Variable RefWithTags : docker.Image → string.

Lemma bind_cong {A B : Type} (m m' : M W A) (f g : A → M W B) (s : store W) :
  m s = m' s → (∀ a s1, f a s1 = g a s1) → bind m f s = bind m' g s.
Proof.
  intros Hm Hf. unfold bind. rewrite Hm. destruct (m' s) as [[a s1] t1].
  by rewrite Hf.
Qed.

Lemma bind_ret_l {A B : Type} (a : A) (f : A → M W B) (s : store W) :
  bind (ret a) f s = f a s.
Proof. unfold bind, ret. by destruct (f a s) as [[b s2] t2]. Qed.

Lemma oneOffTasks_scheduled (ts : list task) (s : store W) :
  oneOffTasks client ops SplitRef RefWithTags (List.filter scheduled ts) s =
  oneOffTasks client ops SplitRef RefWithTags ts s.
Proof.
  revert s. induction ts as [|t ts IH]; intros s; [done|].
  cbn [List.filter]. unfold scheduled at 1.
  destruct (0 <=? Interval t)%Z eqn:Hi; cbn [oneOffTasks].
  - apply bind_cong; [done|]. intros _ s1. apply IH.
  - assert (Hz : (Interval t =? 0)%Z = false) by lia.
    rewrite Hz, bind_ret_l. apply IH.
Qed.

Lemma startTickers_scheduled (ts : list task) (ticking : bool) (s : store W) :
  startTickers ops (List.filter scheduled ts) ticking s =
  startTickers ops ts ticking s.
Proof.
  revert ticking s. induction ts as [|t ts IH]; intros ticking s; [done|].
  cbn [List.filter]. unfold scheduled at 1.
  destruct (0 <=? Interval t)%Z eqn:Hi; cbn [startTickers].
  - destruct (0 <? Interval t)%Z; [|apply IH].
    apply bind_cong; [done|]. intros _ s1. apply IH.
  - assert (Hz : (0 <? Interval t)%Z = false) by lia.
    rewrite Hz. apply IH.
Qed.

(** The loop, with more fuel. *)
Lemma tickLoop_more (fuel extra : nat) (ticking : bool) (s : store W) :
  trace (tickLoop client ops SplitRef RefWithTags fuel ticking s)
    `prefix_of`
  trace (tickLoop client ops SplitRef RefWithTags (fuel + extra) ticking s).
Proof.
  destruct ticking; [|by rewrite !tickLoop_stopped].
  revert s. induction fuel as [|fuel IH]; intros s.
  - apply prefix_nil.
  - cbn [tickLoop Nat.add]. unfold LogPrintln. run.
    do 3 apply prefix_cons. apply prefix_cons. apply prefix_app. apply IH.
Qed.

Lemma syncMappings_fields (t : task) (ms : list mapping) (s : store W) :
  let t' := result (syncMappings client ops SplitRef RefWithTags t ms s) in
  Name t' = Name t ∧ Mappings t' = Mappings t ∧
  Interval t' = Interval t ∧ Verbose t' = Verbose t.
Proof.
  revert t s. induction ms as [|m ms IH]; intros t s; [done|].
  cbn [syncMappings]. simpl. rewrite result_bind.
  destruct (syncMapping_run client ops SplitRef RefWithTags t m s)
    as (_ & Hr & _).
  destruct (IH (result (syncMapping client ops SplitRef RefWithTags t m s))
              (final (syncMapping client ops SplitRef RefWithTags t m s)))
    as (H1 & H2 & H3 & H4).
  simpl in H1, H2, H3, H4. rewrite H1, H2, H3, H4, Hr. done.
Qed.

End Scheduling.

(** X7.  A task of negative interval is passed over altogether: it is
    neither run nor given a ticker, and the run of [SyncFromConfig] is,
    event for event, the run on the configuration without such tasks. *)
Theorem SyncFromConfig_ignores_negative_intervals {W : Type}
    (client : docker.Client W) (ops : TaskOps W)
    (SplitRef : string → string * string * string)
    (RefWithTags : docker.Image → string) (fuel : nat) (ts : list task)
    (s : store W) :
  SyncFromConfig client ops SplitRef RefWithTags fuel
    (mkConfig (List.filter scheduled ts)) s =
  SyncFromConfig client ops SplitRef RefWithTags fuel (mkConfig ts) s.
Proof.
  unfold SyncFromConfig. cbn [Tasks].
  apply bind_cong; [done|]. intros _ s1.
  apply bind_cong; [done|]. intros _ s2.
  apply bind_cong; [done|]. intros err s3.
  apply bind_cong; [done|]. intros _ s4.
  apply bind_cong; [apply oneOffTasks_scheduled|]. intros _ s5.
  apply bind_cong; [apply startTickers_scheduled|]. by intros ticking s6.
Qed.

(** A task of interval -5 between two others changes nothing. *)
Example SyncFromConfig_negative_interval :
  let never := mkTask "never" (mkLocation "docker.io" "")
                 (mkLocation "example.com" "") [Demo.mirror []] (-5) false in
  SyncFromConfig (Demo.client [] [] [] [] Demo.table)
    (Demo.ops [] (fun _ => Demo.hourly)) Demo.SplitRef Demo.RefWithTags 2
    (mkConfig [Demo.once; never; Demo.hourly]) Demo.start =
  SyncFromConfig (Demo.client [] [] [] [] Demo.table)
    (Demo.ops [] (fun _ => Demo.hourly)) Demo.SplitRef Demo.RefWithTags 2
    (mkConfig [Demo.once; Demo.hourly]) Demo.start.
Proof. by vm_compute. Qed.

(** ** More rounds of the loop *)

(** X8.  What [SyncFromConfig] has done after some rounds of the loop is
    the beginning of what it has done after more rounds: the ping, the
    one-off pass and the tickers do not depend on the number of rounds,
    and a round never undoes an earlier one.  When no task recurs the
    run is the same for every number of rounds. *)
Theorem SyncFromConfig_more_rounds {W : Type} (client : docker.Client W)
    (ops : TaskOps W) (SplitRef : string → string * string * string)
    (RefWithTags : docker.Image → string) (fuel extra : nat)
    (conf : syncConfig) (s : store W) :
  trace (SyncFromConfig client ops SplitRef RefWithTags fuel conf s)
    `prefix_of`
  trace (SyncFromConfig client ops SplitRef RefWithTags (fuel + extra) conf s)
  ∧
  (existsb recurring (Tasks conf) = false →
   SyncFromConfig client ops SplitRef RefWithTags (fuel + extra) conf s =
   SyncFromConfig client ops SplitRef RefWithTags fuel conf s).
Proof.
  split.
  - unfold SyncFromConfig, LogPrintln. run.
    do 3 apply prefix_cons. apply prefix_app. apply prefix_app.
    apply prefix_app.
    match goal with
    | |- context [tickLoop _ _ _ _ fuel ?b ?st] =>
        set (ticking := b); set (s3 := st)
    end.
    clearbody s3.
    destruct (startTickers_run ops (Tasks conf) false
                (final (oneOffTasks client ops SplitRef RefWithTags
                          (Tasks conf)
                          (final (match (docker.Ping client 30 (10 * Second)
                                           (world s)).1 with
                                  | Some e =>
                                      bind (LogError (Some e))
                                        (fun _ => ret ())
                                  | None => LogInfo "ok" []
                                  end
                                    (mkStore
                                       (docker.Ping client 30 (10 * Second)
                                          (world s)).2 (heap s)))))))
      as [Hr _].
    simpl in Hr. fold ticking in Hr. clearbody ticking.
    destruct ticking.
    + destruct (tickLoop_ticking client ops SplitRef RefWithTags fuel s3)
        as [Hf _].
      destruct (tickLoop_ticking client ops SplitRef RefWithTags
                  (fuel + extra) s3) as [Hf' _].
      simpl in Hf, Hf'. rewrite Hf, Hf'. run.
      apply tickLoop_more.
    + by rewrite !tickLoop_stopped.
  - intros Hrec. unfold SyncFromConfig.
    apply bind_cong; [done|]. intros _ s1.
    apply bind_cong; [done|]. intros _ s2.
    apply bind_cong; [done|]. intros err s3.
    apply bind_cong; [done|]. intros _ s4.
    apply bind_cong; [done|]. intros _ s5.
    unfold bind.
    destruct (startTickers_run ops (Tasks conf) false s5) as [Hr _].
    simpl in Hr. rewrite Hrec in Hr.
    destruct (startTickers ops (Tasks conf) false s5) as [[ticking s6] t6].
    unfold result in Hr. simpl in Hr. subst ticking.
    by rewrite !tickLoop_stopped.
Qed.

(** Only one-off tasks: three rounds of fuel more change nothing. *)
Lemma SyncFromConfig_more_rounds_witness :
  existsb recurring (Tasks (mkConfig [Demo.once])) = false ∧
  SyncFromConfig (Demo.client [] [] [] [] Demo.table)
    (Demo.ops [] (fun _ => Demo.once)) Demo.SplitRef Demo.RefWithTags (1 + 3)
    (mkConfig [Demo.once]) Demo.start =
  SyncFromConfig (Demo.client [] [] [] [] Demo.table)
    (Demo.ops [] (fun _ => Demo.once)) Demo.SplitRef Demo.RefWithTags 1
    (mkConfig [Demo.once]) Demo.start.
Proof.
  split; [reflexivity|].
  exact (proj2 (SyncFromConfig_more_rounds
                  (Demo.client [] [] [] [] Demo.table)
                  (Demo.ops [] (fun _ => Demo.once)) Demo.SplitRef
                  Demo.RefWithTags 1 3 (mkConfig [Demo.once]) Demo.start)
           eq_refl).
Defined.

(** ** The task after [SyncTask] *)


(** ** The lines of the log *)

Lemma append_cons (c : ascii) (a b : string) :
  String c a +:+ b = String c (a +:+ b).
Proof. reflexivity. Qed.

Lemma length_append (a b : string) :
  String.length (a +:+ b) = (String.length a + String.length b)%nat.
Proof.
  induction a as [|c a IH]; [done|]. rewrite append_cons. simpl.
  by rewrite IH.
Qed.

Lemma substring_whole (b : string) : substring 0 (String.length b) b = b.
Proof. induction b as [|c b IH]; simpl; [done | by rewrite IH]. Qed.

Lemma substring_skip (a b : string) (m : nat) :
  substring (String.length a) m (a +:+ b) = substring 0 m b.
Proof. induction a as [|c a IH]; [done|]. rewrite append_cons. apply IH. Qed.

Lemma substring_split (s : string) (n : nat) :
  (n ≤ String.length s)%nat →
  s = substring 0 n s +:+ substring n (String.length s - n) s.
Proof.
  revert n. induction s as [|c s IH]; intros n Hn.
  - destruct n; [reflexivity | simpl in Hn; lia].
  - destruct n as [|n].
    + simpl. by rewrite substring_whole.
    + simpl. rewrite append_cons. f_equal. apply IH. simpl in Hn. lia.
Qed.

Lemma HasSuffix_append (a b : string) : HasSuffix (a +:+ b) b = true.
Proof.
  unfold HasSuffix. rewrite length_append. apply andb_true_intro. split.
  - apply Nat.leb_le. lia.
  - replace (String.length a + String.length b - String.length b)%nat
      with (String.length a) by lia.
    by rewrite substring_skip, substring_whole, String.eqb_refl.
Qed.

Lemma HasSuffix_inv (s x : string) :
  HasSuffix s x = true → ∃ pre, s = pre +:+ x.
Proof.
  unfold HasSuffix. intros H. apply andb_prop in H as [Hlen Heq].
  apply Nat.leb_le in Hlen. apply String.eqb_eq in Heq.
  exists (substring 0 (String.length s - String.length x) s).
  pose proof (substring_split s (String.length s - String.length x)
                ltac:(lia)) as Hs.
  replace (String.length s - (String.length s - String.length x))%nat
    with (String.length x) in Hs by lia.
  by rewrite Heq in Hs.
Qed.

Lemma HasSuffix_append_l (a b x : string) :
  HasSuffix b x = true → HasSuffix (a +:+ b) x = true.
Proof.
  intros H. apply HasSuffix_inv in H as [pre ->].
  rewrite <- append_assoc. apply HasSuffix_append.
Qed.



(** ** [New] *)

(** X11.  [New] takes an empty host for the default host and an empty
    API version for ["1.24"]; it returns either a [Sync] and no error, or
    no [Sync] and the error of [NewClient] behind
    ["cannot create Docker client: "]; the client writes to the [Sync]
    exactly when the output is not a terminal. *)
Theorem New_defaults_and_error (C : Type) (DefaultDockerHost : string)
    (NewClient : string → string → option writer → C + error)
    (toTerminal : bool) (dockerhost api : string) :
  let host := if String.eqb dockerhost "" then DefaultDockerHost
              else dockerhost in
  let version := if String.eqb api "" then "1.24" else api in
  let out := if toTerminal then None else Some SyncWriter in
  let r := New C DefaultDockerHost NewClient toTerminal dockerhost api in
  r = New C DefaultDockerHost NewClient toTerminal host version ∧
  (r.1 = None ↔ r.2 ≠ None) ∧
  (∀ cli, r.1 = Some cli → NewClient host version out = inl cli) ∧
  (∀ e, r.2 = Some e →
        ∃ e0, NewClient host version out = inr e0 ∧
              e = "cannot create Docker client: " +:+ e0).
Proof.
  unfold New. simpl. split; [|split; [|split]].
  - destruct (String.eqb dockerhost "") eqn:Hh, (String.eqb api "") eqn:Ha;
      rewrite ?Hh, ?Ha; try done.
    + destruct (String.eqb DefaultDockerHost ""); reflexivity.
    + destruct (String.eqb DefaultDockerHost ""); reflexivity.
  - destruct (NewClient _ _ _); simpl; split; done.
  - intros cli. destruct (NewClient _ _ _); simpl; [by intros [= ->] | done].
  - intros e. destruct (NewClient _ _ _) as [cli|e0]; simpl; [done|].
    intros [= <-]. by exists e0.
Qed.

(** No host and no version given, and a daemon that refuses. *)
Lemma New_defaults_and_error_witness :
  let NewClient := fun (host api : string) (out : option writer) =>
                     if String.eqb api "1.24"
                     then inr "refused" else inl (host, api, out) in
  let r := New (string * string * option writer) "unix:///var/run/docker.sock"
             NewClient true "" "" in
  r.2 = Some "cannot create Docker client: refused" ∧
  ∃ e0, NewClient "unix:///var/run/docker.sock" "1.24" None = inr e0 ∧
        "cannot create Docker client: refused" =
          "cannot create Docker client: " +:+ e0.
Proof.
  split; [reflexivity|].
  exact (proj2 (proj2 (proj2 (New_defaults_and_error
                                (string * string * option writer)
                                "unix:///var/run/docker.sock"
                                (fun host api out =>
                                   if String.eqb api "1.24"
                                   then inr "refused"
                                   else inl (host, api, out))
                                true "" "")))
           "cannot create Docker client: refused" eq_refl).
Defined.

(** ** The helpers of the ECR tests *)

(** X12.  [SkipIfECRNotConfigured] lets the test go on exactly when the
    three variables are set to something; otherwise it skips it, and the
    names it reports are those of the variables that are empty, in the
    order access key, secret key, registry. *)
Theorem SkipIfECRNotConfigured_skips_iff_missing (Getenv : string → string)
    (EnvAccessKeyID EnvSecretAccessKey EnvECRRegistry : string) :
  let keys := [EnvAccessKeyID; EnvSecretAccessKey; EnvECRRegistry] in
  let r := registries.SkipIfECRNotConfigured Getenv EnvAccessKeyID
             EnvSecretAccessKey EnvECRRegistry in
  (r = registries.Continues ↔ Forall (fun k => Getenv k ≠ "") keys) ∧
  (∀ missing,
     r = registries.Skipped missing →
     missing ≠ [] ∧
     missing = List.filter (fun k => String.eqb (Getenv k) "") keys) ∧
  (∀ err, r ≠ registries.Fatal err).
Proof.
  unfold registries.SkipIfECRNotConfigured. simpl.
  destruct (String.eqb (Getenv EnvAccessKeyID) "") eqn:H1,
           (String.eqb (Getenv EnvSecretAccessKey) "") eqn:H2,
           (String.eqb (Getenv EnvECRRegistry) "") eqn:H3; simpl;
    rewrite ?String.eqb_eq, ?String.eqb_neq in *;
    (split; [|split; [|done]]).
  all: try (intros missing Hm; injection Hm as <-; by split).
  all: try (by intros missing Hm).
  all: split;
    [ first [done | intros _; by repeat constructor]
    | first [done
            | intros Hall; exfalso;
              apply Forall_cons in Hall as [Ha Hall];
              apply Forall_cons in Hall as [Hb Hall];
              apply Forall_cons in Hall as [Hc _]; congruence ] ].
Qed.

(** Only the secret key is set. *)
Lemma SkipIfECRNotConfigured_skips_iff_missing_witness :
  let Getenv := fun k => if String.eqb k "AWS_SECRET_ACCESS_KEY"
                         then "s3cr3t" else "" in
  registries.SkipIfECRNotConfigured Getenv "AWS_ACCESS_KEY_ID"
    "AWS_SECRET_ACCESS_KEY" "DREGSY_TEST_ECR_REGISTRY" =
    registries.Skipped ["AWS_ACCESS_KEY_ID"; "DREGSY_TEST_ECR_REGISTRY"] ∧
  ["AWS_ACCESS_KEY_ID"; "DREGSY_TEST_ECR_REGISTRY"] =
    List.filter (fun k => String.eqb (Getenv k) "")
      ["AWS_ACCESS_KEY_ID"; "AWS_SECRET_ACCESS_KEY";
       "DREGSY_TEST_ECR_REGISTRY"].
Proof.
  split; [reflexivity|].
  exact (proj2 (proj1 (proj2 (SkipIfECRNotConfigured_skips_iff_missing
                                (fun k => if String.eqb k
                                               "AWS_SECRET_ACCESS_KEY"
                                          then "s3cr3t" else "")
                                "AWS_ACCESS_KEY_ID" "AWS_SECRET_ACCESS_KEY"
                                "DREGSY_TEST_ECR_REGISTRY"))
                  ["AWS_ACCESS_KEY_ID"; "DREGSY_TEST_ECR_REGISTRY"] eq_refl)).
Defined.

(** X13.  [RemoveECRRepo] calls nothing for a registry that is not an
    ECR one.  For an ECR registry it opens a session and, if that
    succeeds, makes one forced delete of the repository in the region of
    the registry.  It fails the test exactly on an error of the session
    or on an error of the delete other than the AWS error
    repository-not-found: removing a repository that is not there is no
    failure. *)
Theorem RemoveECRRepo_fails_iff (GetECR : string → bool * string * string)
    (newSession : option registries.goError)
    (deleteRepository : string → bool → string → option registries.goError)
    (NotFound : string) (ECRRegistry ECRRepo : string) :
  let isEcr := (GetECR ECRRegistry).1.1 in
  let region := (GetECR ECRRegistry).1.2 in
  let r := registries.RemoveECRRepo GetECR newSession deleteRepository
             NotFound ECRRegistry ECRRepo in
  (isEcr = false → r = (registries.Continues, [])) ∧
  (isEcr = true →
   r.2 = match newSession with
         | Some _ => [registries.NewSession]
         | None => [registries.NewSession;
                    registries.DeleteRepository region true ECRRepo]
         end) ∧
  (∀ err,
     r.1 = registries.Fatal err ↔
     isEcr = true ∧
     (newSession = Some err ∨
      newSession = None ∧
      deleteRepository region true ECRRepo = Some err ∧
      ∀ message, err ≠ registries.AwsErr NotFound message)) ∧
  (∀ missing, r.1 ≠ registries.Skipped missing).
Proof.
  unfold registries.RemoveECRRepo.
  destruct (GetECR ECRRegistry) as [[isEcr region] account]. simpl.
  destruct isEcr; simpl.
  2:{ split; [done|]. split; [done|]. split; [|done].
      intros err. split; [done | by intros [? _]]. }
  destruct newSession as [serr|]; simpl.
  { split; [done|]. split; [done|]. split; [|done]. intros err. split.
    - intros [= ->]. split; [done | by left].
    - by intros [_ [[= ->]|(? & _)]]. }
  destruct (deleteRepository region true ECRRepo) as [[code msg|msg]|] eqn:Hd;
    simpl.
  - destruct (String.eqb code NotFound) eqn:Hc; simpl.
    + apply String.eqb_eq in Hc. subst code.
      split; [done|]. split; [done|]. split; [|done]. intros err.
      split; [done|]. intros [_ [Hs|(_ & He & Hne)]]; [done|].
      injection He as <-. by destruct (Hne msg).
    + apply String.eqb_neq in Hc.
      split; [done|]. split; [done|]. split; [|done]. intros err. split.
      * intros [= <-]. split; [done|]. right. split; [done|]. split; [done|].
        intros message [= Hcode _]. by apply Hc.
      * intros [_ [Hs|(_ & He & _)]]; [done|]. by injection He as <-.
  - split; [done|]. split; [done|]. split; [|done]. intros err. split.
    + intros [= <-]. split; [done|]. right. split; [done|]. by split.
    + intros [_ [Hs|(_ & He & _)]]; [done|]. by injection He as <-.
  - split; [done|]. split; [done|]. split; [|done]. intros err.
    split; [done|]. by intros [_ [Hs|(_ & He & _)]].
Qed.

(** The repository is already gone: two calls, and the test goes on. *)
Lemma RemoveECRRepo_fails_iff_witness :
  let GetECR := fun reg : string => (true, "eu-central-1", "1234") in
  let del := fun (region : string) (force : bool) (name : string) =>
               Some (registries.AwsErr "RepositoryNotFoundException" "gone") in
  let r := registries.RemoveECRRepo GetECR None del
             "RepositoryNotFoundException"
             "1234.dkr.ecr.eu-central-1.amazonaws.com" "mirror/alpine" in
  (GetECR "1234.dkr.ecr.eu-central-1.amazonaws.com").1.1 = true ∧
  r.1 = registries.Continues ∧
  r.2 = [registries.NewSession;
         registries.DeleteRepository "eu-central-1" true "mirror/alpine"].
Proof.
  split; [reflexivity|]. split; [reflexivity|].
  exact (proj1 (proj2 (RemoveECRRepo_fails_iff
                         (fun reg : string => (true, "eu-central-1", "1234"))
                         None
                         (fun (region : string) (force : bool)
                              (name : string) =>
                            Some (registries.AwsErr
                                    "RepositoryNotFoundException" "gone"))
                         "RepositoryNotFoundException"
                         "1234.dkr.ecr.eu-central-1.amazonaws.com"
                         "mirror/alpine"))
           eq_refl).
Defined.

(** ** What [tag] returns *)

Lemma tagImages_failure_nil {W : Type} (client : docker.Client W)
    (targetRepo targetPath : string) (ps acc : list ptr) (s : store W)
    (e : error) :
  (result (tagImages client targetRepo targetPath ps acc s)).2 = Some e →
  (result (tagImages client targetRepo targetPath ps acc s)).1 = [].
Proof.
  revert acc s. induction ps as [|p ps IH]; intros acc s; cbn [tagImages].
  - by run.
  - run.
    destruct (result (tagTags client _ _ _ _)) as [e'|]; run; [done|].
    apply IH.
Qed.

(** X14.  [tag] stops at the first tag call that fails: it then returns
    no image and the error of that call as it is, and the failed call is
    its last.  It returns no error exactly when every tag call it made
    succeeded, and the calls it makes are always the first ones of the
    calls due for the images it was given. *)
Theorem tag_stops_at_first_failure {W : Type} (client : docker.Client W)
    (SplitRef : string → string * string * string)
    (images : list ptr) (targetRef : string) (s : store W) :
  Forall (fun p => p < length (heap s)) images →
  let r := tag client SplitRef images targetRef s in
  let targetRepo := (SplitRef targetRef).1.1 in
  let targetPath := (SplitRef targetRef).1.2 in
  ((result r).2 = None ↔ tagsOk (trace r)) ∧
  (∀ e, (result r).2 = Some e →
        (result r).1 = [] ∧
        ∃ pre id ref, trace r = pre ++ [EvTag id ref (Some e)] ∧ tagsOk pre) ∧
  tagCalls (trace r) `prefix_of`
    tagsForAll targetRepo targetPath (map (fun p => heap s !!! p) images).
Proof.
  intros Hps r targetRepo targetPath.
  destruct (tag_shape client SplitRef images targetRef s Hps) as (Hshape & _).
  fold r targetRepo targetPath in Hshape.
  apply tagShape_facts in Hshape as (_ & Hpre & Hres).
  split; [|split; [|done]].
  - destruct ((result r).2) as [e|].
    + destruct Hres as (pre & id & ref & -> & _).
      split; [done|]. intros Hbad. by apply failed_tag_not_ok in Hbad.
    + by destruct Hres.
  - intros e He. split.
    + subst r. unfold tag in *.
      destruct (SplitRef targetRef) as [[repo path] tg].
      by eapply tagImages_failure_nil.
    + by rewrite He in Hres.
Qed.

(** The second of three tag calls fails: the third is not made. *)
Lemma tag_stops_at_first_failure_witness :
  let s := mkStore 0 [Demo.alpine; Demo.alpine2] in
  let r := tag (Demo.client [] [] ["example.com/mirror/alpine:3.19"] [] [])
             Demo.SplitRef [0; 1]%nat "example.com/mirror/alpine" s in
  Forall (fun p => p < length (heap s)) [0; 1]%nat ∧
  (result r).2 = Some "denied" ∧
  (result r).1 = [] ∧
  ∃ pre id ref, trace r = pre ++ [EvTag id ref (Some "denied")] ∧ tagsOk pre.
Proof.
  set (s := mkStore 0 [Demo.alpine; Demo.alpine2]).
  assert (Hps : Forall (fun p => p < length (heap s)) [0; 1]%nat)
    by repeat constructor.
  split; [exact Hps|]. split; [reflexivity|].
  exact (proj1 (proj2 (tag_stops_at_first_failure
                         (Demo.client [] []
                            ["example.com/mirror/alpine:3.19"] [] [])
                         Demo.SplitRef [0; 1]%nat "example.com/mirror/alpine"
                         s Hps))
           "denied" eq_refl).
Defined.
